(** * The PII matching engine of redact-that (apps/web/app/actions.ts)

    A shallow embedding of [createSearchVariants], [createPiiMatch],
    [findFlexibleMatches], [fuzzyMatchPII] and [mapPiiToBbox], and the
    properties of the matching pipeline stated over it.

    Modelling conventions.
    - A JavaScript string is a [string] of 8-bit code units (the Latin-1 part
      of UTF-16); [is_space] is the regular expression class [\s] on that
      range, which is also what [trim] strips.
    - A [number] holding a word index, a length or a counter is a [nat];
      a pixel coordinate of the OCR collaborator (an integer vertex) is a [Z];
      a confidence is an exact rational [Q] (the doubles of the source are
      read as the rationals they approximate).
    - [Set<number>] is a [gset nat].
    - [JSON.stringify(a) === JSON.stringify(b)] on arrays of strings is
      equality of the arrays.
    - [Array.prototype.sort] is stable. *)

From Stdlib Require Import ZArith QArith Lqa Ascii String List Sorted Permutation.
From stdpp Require Import base decidable list gmap strings.
Import ListNotations.
Local Open Scope string_scope.
Local Open Scope list_scope.
Local Open Scope nat_scope.

(** ** Characters and strings *)

Module Js.

Definition code (c : ascii) : nat := nat_of_ascii c.

Definition is_digit (c : ascii) : bool :=
  (48 <=? code c) && (code c <=? 57).

Definition is_upper (c : ascii) : bool :=
  (65 <=? code c) && (code c <=? 90).

Definition is_lower (c : ascii) : bool :=
  (97 <=? code c) && (code c <=? 122).

(** [[A-Za-z]], also [/[A-Z]/i]. *)
Definition is_letter (c : ascii) : bool := is_upper c || is_lower c.

(** [[a-zA-Z0-9]]. *)
Definition is_alnum (c : ascii) : bool := is_letter c || is_digit c.

(** [\s] below code unit 256: TAB, LF, VT, FF, CR, SPACE, NBSP. *)
Definition is_space (c : ascii) : bool :=
  ((9 <=? code c) && (code c <=? 13)) || (code c =? 32) || (code c =? 160).

Definition chars (s : string) : list ascii := list_ascii_of_string s.
Definition str (l : list ascii) : string := string_of_list_ascii l.

(** [s.replace(/[^a-zA-Z0-9]/g, "")]. *)
Definition stripNonAlnum (s : string) : string :=
  str (List.filter is_alnum (chars s)).

Definition lower_char (c : ascii) : ascii :=
  if is_upper c then ascii_of_nat (code c + 32) else c.

(** [s.toLowerCase()] on the letters that survive [stripNonAlnum]. *)
Definition toLowerCase (s : string) : string :=
  str (List.map lower_char (chars s)).

(** [s.trim()]. *)
Fixpoint dropSpaces (l : list ascii) : list ascii :=
  match l with
  | c :: l' => if is_space c then dropSpaces l' else l
  | [] => []
  end.

Definition trim (s : string) : string :=
  str (List.rev (dropSpaces (List.rev (dropSpaces (chars s))))).

(** [s.split(/\s+/)]: the pieces between maximal runs of white space; a
    run at either end leaves an empty piece there, and the empty string
    splits into one empty piece. [cur] is the piece being read, reversed;
    [inRun] says that the previous character was white space. *)
Fixpoint splitFrom (inRun : bool) (cur : list ascii) (l : list ascii)
  : list string :=
  match l with
  | [] => [str (List.rev cur)]
  | c :: l' =>
      if is_space c
      then if inRun then splitFrom true [] l'
           else str (List.rev cur) :: splitFrom true [] l'
      else splitFrom false (c :: cur) l'
  end.

Definition splitSpaces (s : string) : list string :=
  splitFrom false [] (chars s).

(** [s.replace(/P(.)Q(.)/g, "$1 $2")] for two one-character classes [p]
    and [q]: matches are found left to right and do not overlap. *)
Fixpoint spaceBetween (p q : ascii -> bool) (l : list ascii) : list ascii :=
  match l with
  | c1 :: ((c2 :: l2) as l1) =>
      if p c1 && q c2
      then c1 :: " "%char :: c2 :: spaceBetween p q l2
      else c1 :: spaceBetween p q l1
  | _ => l
  end.

(** [s.replace(/C/g, " ")] for a one-character class [p]. *)
Definition replaceBySpace (p : ascii -> bool) (s : string) : string :=
  str (List.map (fun c => if p c then " "%char else c) (chars s)).

Definition is_hyphen (c : ascii) : bool := code c =? 45.

(** [[,_.]]. *)
Definition is_punct (c : ascii) : bool :=
  (code c =? 44) || (code c =? 95) || (code c =? 46).

(** [s.slice(i, j)] and [s.slice(i)] for [0 <= i <= j]. *)
Definition slice (s : string) (i j : nat) : string := substring i (j - i) s.
Definition sliceFrom (s : string) (i : nat) : string :=
  substring i (String.length s - i) s.

(** [s[i]]; only read inside the bounds. *)
Definition charAt (s : string) (i : nat) : ascii :=
  match get i s with Some c => c | None => zero end.

(** [a.join("")]. *)
Definition join (l : list string) : string := String.concat "" l.

End Js.

(** ** Data model *)

(** [Vertex]: [x] and [y] are optional; a present coordinate is a number. *)
Record Vertex := { vx : option Z; vy : option Z }.

Record BoundingBox := { vertices : option (list Vertex) }.

Record WordInfo := { text : string; boundingBox : option BoundingBox }.

(** An element of [piiList]. *)
Record Pii := { pii_text : string; pii_label : string }.

Definition Variant := list string.

(** The [matchType] descriptor. The source renders it to a string from the
    data kept here; the rendering itself is not modelled. *)
Inductive MatchType :=
| ExactVariant (variant : Variant)
| FlexibleMatch (matchedWords : nat)
| FuzzyMatch (confidence : Q).

(** The object built by [createPiiMatch]. *)
Record PiiMatch := {
  m_id : nat;
  m_label : string;
  m_text : string;
  m_bbox : Z * Z * Z * Z;
  m_vertices : list Vertex;
  m_redacted : bool;
  m_confidence : Q;
  m_matchType : MatchType
}.

(** ** createSearchVariants *)

Definition variant_eqb (v1 v2 : Variant) : bool := bool_decide (v1 = v2).

(** The test of the two split loops: a letter followed by a digit or a digit
    followed by a letter. *)
Definition boundary (c1 c2 : ascii) : bool :=
  (Js.is_letter c1 && Js.is_digit c2) || (Js.is_digit c1 && Js.is_letter c2).

(** The inner loop over [j]: the first boundary at [j >= i + 2] gives the one
    3-way split tried for [i]. *)
Definition threeWaySplit (word : string) (i : nat) : list Variant :=
  let len := String.length word in
  match List.find (fun j => boundary (Js.charAt word (j - 1)) (Js.charAt word j))
                  (seq (i + 2) (len - (i + 2))) with
  | Some j => [[Js.slice word 0 i; Js.slice word i j; Js.sliceFrom word j]]
  | None => []
  end.

(** The loop over [i] that fills [possibleSplits]. *)
Definition possibleSplits (word : string) : list Variant :=
  let len := String.length word in
  flat_map
    (fun i =>
       (if boundary (Js.charAt word (i - 1)) (Js.charAt word i)
        then [[Js.slice word 0 i; Js.sliceFrom word i]] else [])
       ++
       (if (6 <=? len) && (2 <=? i) && (i <=? len - 2)
        then threeWaySplit word i else []))
    (seq 1 (len - 1)).

(** [a.findIndex(p)]; [None] is the source's [-1]. *)
Fixpoint findIndex {A} (p : A -> bool) (l : list A) : option nat :=
  match l with
  | [] => None
  | x :: l' => if p x then Some 0 else option_map S (findIndex p l')
  end.

(** [variants.filter((variant, index) => variants.findIndex(...) === index)]. *)
Definition uniqueVariants (variants : list Variant) : list Variant :=
  List.map snd
    (List.filter
       (fun iv => bool_decide (findIndex (variant_eqb (snd iv)) variants = Some (fst iv)))
       (combine (seq 0 (length variants)) variants)).

(** [text.trim().split(/\s+/).map(word => word.replace(/[^a-zA-Z0-9]/g, ""))]. *)
Definition tokenize (s : string) : list string :=
  List.map Js.stripNonAlnum (Js.splitSpaces (Js.trim s)).

(** Variant 1. *)
Definition normalizedWordsOf (piiText : string) : Variant := tokenize piiText.

(** Variant 2. *)
Definition mergedVariants (normalizedWords : Variant) : list Variant :=
  if 1 <? length normalizedWords then [[Js.join normalizedWords]] else [].

(** Variant 3. The spaced word has no white space at either end, so the
    source's [split] without [trim] is [Js.splitSpaces]. *)
Definition spacedVariantOf (singleWord : string) : Variant :=
  List.map Js.stripNonAlnum
    (Js.splitSpaces
       (Js.str (Js.spaceBetween Js.is_digit Js.is_letter
                  (Js.spaceBetween Js.is_letter Js.is_digit (Js.chars singleWord))))).

Definition spacedVariants (normalizedWords : Variant) : list Variant :=
  match normalizedWords with
  | [singleWord] =>
      let spacedVariant := spacedVariantOf singleWord in
      if 1 <? length spacedVariant then [spacedVariant] else []
  | _ => []
  end.

(** Variant 4. *)
Definition expandHyphensOf (piiText : string) : Variant :=
  List.filter (fun word => 0 <? String.length word)
    (tokenize (Js.replaceBySpace Js.is_punct (Js.replaceBySpace Js.is_hyphen piiText))).

Definition hyphenVariants (piiText : string) (normalizedWords : Variant)
  : list Variant :=
  let expandHyphens := expandHyphensOf piiText in
  if negb (length expandHyphens =? length normalizedWords)
     || negb (variant_eqb expandHyphens normalizedWords)
  then [expandHyphens] else [].

(** Variant 5. *)
Definition splitVariants (normalizedWords : Variant) : list Variant :=
  match normalizedWords with
  | [word] =>
      if 4 <=? String.length word
      then List.filter
             (fun split =>
                (1 <? length split)
                && forallb (fun part => 0 <? String.length part) split)
             (possibleSplits word)
      else []
  | _ => []
  end.

Definition createSearchVariants (piiText : string) : list Variant :=
  let normalizedWords := normalizedWordsOf piiText in
  let variants :=
    [normalizedWords]
    ++ mergedVariants normalizedWords
    ++ spacedVariants normalizedWords
    ++ hyphenVariants piiText normalizedWords
    ++ splitVariants normalizedWords in
  uniqueVariants variants.

(** ** createPiiMatch *)

(** [w.boundingBox?.vertices ?? []]. *)
Definition verticesOf (w : WordInfo) : list Vertex :=
  match boundingBox w with
  | Some b => match vertices b with Some vs => vs | None => [] end
  | None => []
  end.

(** [typeof v.x === 'number' && typeof v.y === 'number']. *)
Definition validVertex (v : Vertex) : bool :=
  match vx v, vy v with
  | Some _, Some _ => true
  | _, _ => false
  end.

(** [vs.map((v) => v.x!).filter(x => x !== null && x !== undefined)]. *)
Definition coords (proj : Vertex -> option Z) (vs : list Vertex) : list Z :=
  flat_map (fun v => match proj v with Some c => [c] | None => [] end) vs.

(** [Math.min(...cs)] and [Math.max(...cs)]; the source calls them on
    non-empty lists only (on the empty list they are the infinities). *)
Definition minOf (cs : list Z) : Z :=
  match cs with
  | [] => 0%Z
  | c :: cs' => fold_left Z.min cs' c
  end.

Definition maxOf (cs : list Z) : Z :=
  match cs with
  | [] => 0%Z
  | c :: cs' => fold_left Z.max cs' c
  end.

Definition createPiiMatch (wordSlice : list WordInfo) (id : nat) (pii : Pii)
    (confidence : Q) (matchType : MatchType) : option PiiMatch :=
  let allVertices := flat_map verticesOf wordSlice in
  let validVertices := List.filter validVertex allVertices in
  if length validVertices =? 0 then None
  else
    let xCoords := coords vx validVertices in
    let yCoords := coords vy validVertices in
    let x0 := minOf xCoords in
    let y0 := minOf yCoords in
    let x1 := maxOf xCoords in
    let y1 := maxOf yCoords in
    let width := (x1 - x0)%Z in
    let height := (y1 - y0)%Z in
    Some {| m_id := id;
            m_label := pii_label pii;
            m_text := pii_text pii;
            m_bbox := (x0, y0, width, height);
            m_vertices := validVertices;
            m_redacted := true;
            m_confidence := confidence;
            m_matchType := matchType |}.

(** ** Sorting by descending confidence

    [arr.sort((a, b) => b.confidence - a.confidence)]: a stable sort, written
    as an insertion sort that places an element before the first one whose
    confidence is not greater. *)

Section Sorting.
Context {A : Type} (conf : A -> Q).

Fixpoint insertDesc (x : A) (l : list A) : list A :=
  match l with
  | [] => [x]
  | y :: l' =>
      if Qle_bool (conf y) (conf x) then x :: l else y :: insertDesc x l'
  end.

Fixpoint sortDesc (l : list A) : list A :=
  match l with
  | [] => []
  | x :: l' => insertDesc x (sortDesc l')
  end.

(** [a] may stand before [b] in descending order of confidence. *)
Definition Desc (a b : A) : Prop := (conf b <= conf a)%Q.
End Sorting.

(** ** findFlexibleMatches *)

Record FlexMatch := {
  f_words : list WordInfo;
  f_confidence : Q;
  f_matchedWords : Variant;
  f_positions : list nat
}.

(** [arr.map((x, index) => ...)] pairs every element with its index. *)
Definition indexed {A} (l : list A) : list (nat * A) :=
  combine (seq 0 (length l)) l.

(** The positions of the words whose text is [targetWord]. *)
Definition occurrences (wordMap : list WordInfo) (targetWord : string)
  : list nat :=
  List.map fst
    (List.filter (fun item => String.eqb (text (snd item)) targetWord)
       (indexed wordMap)).

Definition minPosOf (l : list nat) : nat :=
  match l with [] => 0 | p :: l' => fold_left Nat.min l' p end.

Definition maxPosOf (l : list nat) : nat :=
  match l with [] => 0 | p :: l' => fold_left Nat.max l' p end.

(** [maxPos - minPos + 1]. *)
Definition spanOf (currentCombination : list nat) : nat :=
  maxPosOf currentCombination - minPosOf currentCombination + 1.

(** [Math.max(0.7, 1 - span / 100)]. *)
Definition flexConfidence (span : nat) : Q :=
  let c := (1 - inject_Z (Z.of_nat span) / 100)%Q in
  if Qle_bool c (7 # 10) then (7 # 10)%Q else c.

(** [currentCombination.map(pos => wordMap[pos])], on positions inside the
    word list (the only ones the search produces). *)
Definition wordsAt (wordMap : list WordInfo) (positions : list nat)
  : list WordInfo :=
  flat_map (fun pos => match wordMap !! pos with Some w => [w] | None => [] end)
    positions.

Section FlexibleVariant.
Variables (variant : Variant) (wordMap : list WordInfo)
          (foundPositions : gset nat).

(** The test at a leaf of the search. *)
Definition acceptable (currentCombination : list nat) : bool :=
  (spanOf currentCombination <=? 20)
  && negb (existsb (fun pos => bool_decide (pos ∈ foundPositions))
             currentCombination).

(** [findCombinations(wordIndex, currentCombination, usedPositions)];
    [remaining] is [wordPositions] from [wordIndex] on, so the recursion
    ends when it is empty. The matches are listed in the order the source
    pushes them. *)
Fixpoint findCombinations (remaining : list (list nat))
    (currentCombination : list nat) (usedPositions : gset nat)
  : list FlexMatch :=
  match remaining with
  | [] =>
      if (length currentCombination =? length variant)
         && acceptable currentCombination
      then [ {| f_words := wordsAt wordMap currentCombination;
                f_confidence := flexConfidence (spanOf currentCombination);
                f_matchedWords := variant;
                f_positions := currentCombination |} ]
      else []
  | positions :: remaining' =>
      flat_map
        (fun position =>
           if bool_decide (position ∈ usedPositions) then []
           else findCombinations remaining'
                  (currentCombination ++ [position])
                  ({[position]} ∪ usedPositions))
        positions
  end.

(** One turn of the loop over the variants. *)
Definition flexibleOfVariant : list FlexMatch :=
  if length variant <? 3 then []
  else
    let wordPositions := List.map (occurrences wordMap) variant in
    if existsb (fun positions => length positions =? 0) wordPositions
    then []
    else findCombinations wordPositions [] ∅.
End FlexibleVariant.

Definition flexibleCandidates (searchVariants : list Variant)
    (wordMap : list WordInfo) (foundPositions : gset nat) : list FlexMatch :=
  flat_map (fun variant => flexibleOfVariant variant wordMap foundPositions)
    searchVariants.

Definition findFlexibleMatches (searchVariants : list Variant)
    (wordMap : list WordInfo) (foundPositions : gset nat) : list FlexMatch :=
  firstn 3
    (sortDesc f_confidence
       (flexibleCandidates searchVariants wordMap foundPositions)).

(** ** fuzzyMatchPII *)

(** [distance] of the package fastest-levenshtein: the Levenshtein edit
    distance of two strings, computed row by row. [levRow a t prev left]
    is the row of the character [a] from the row [prev] above it; [left] is
    the entry to the left of the one being computed. *)
Fixpoint levRow (a : ascii) (t : list ascii) (prev : list nat) (left : nat)
  : list nat :=
  match t, prev with
  | b :: t', diag :: ((up :: _) as prev') =>
      let cost := if Ascii.eqb a b then 0 else 1 in
      let v := Nat.min (Nat.min (S up) (S left)) (diag + cost) in
      v :: levRow a t' prev' v
  | _, _ => []
  end.

Definition distance (s t : string) : nat :=
  let t' := Js.chars t in
  List.last
    (fold_left
       (fun row a => let first := S (hd 0 row) in first :: levRow a t' row first)
       (Js.chars s) (seq 0 (S (length t'))))
    0.

Record FuzzyMatchInfo := {
  z_position : nat;
  z_confidence : Q;
  z_matchedWords : nat
}.

(** [words.slice(i, j)] for [i <= j]. *)
Definition sliceWords {A} (l : list A) (i j : nat) : list A :=
  firstn (j - i) (skipn i l).

(** The candidate string of the window of [span] words at [i]. *)
Definition candidateAt (words : list WordInfo) (i span : nat) : string :=
  Js.join
    (List.map (fun w => Js.toLowerCase (Js.stripNonAlnum (text w)))
       (sliceWords words i (i + span))).

(** [1 - distance(normalizedPii, candidate) /
         Math.max(normalizedPii.length, candidate.length)]. *)
Definition similarityOf (normalizedPii candidate : string) : Q :=
  (1 - inject_Z (Z.of_nat (distance normalizedPii candidate))
       / inject_Z (Z.of_nat (Nat.max (String.length normalizedPii)
                                     (String.length candidate))))%Q.

(** The body of the two nested loops at [span] and [i]. *)
Definition fuzzyAtWindow (normalizedPii : string) (words : list WordInfo)
    (threshold : Q) (span i : nat) : list FuzzyMatchInfo :=
  let candidate := candidateAt words i span in
  if 0 <? String.length candidate then
    let similarity := similarityOf normalizedPii candidate in
    if Qle_bool threshold similarity
    then [ {| z_position := i; z_confidence := similarity;
              z_matchedWords := span |} ]
    else []
  else [].

(** [matches] when the loops end. *)
Definition fuzzyCandidates (piiText : string) (words : list WordInfo)
    (threshold : Q) : list FuzzyMatchInfo :=
  let normalizedPii := Js.toLowerCase (Js.stripNonAlnum piiText) in
  flat_map
    (fun span =>
       flat_map (fuzzyAtWindow normalizedPii words threshold span)
         (seq 0 (S (length words) - span)))
    (seq 1 (Nat.min 5 (length words))).

(** [Math.abs(prev.position - match.position)
       < Math.max(prev.matchedWords, match.matchedWords)]. *)
Definition overlaps (prev m : FuzzyMatchInfo) : bool :=
  (z_position prev - z_position m) + (z_position m - z_position prev)
  <? Nat.max (z_matchedWords prev) (z_matchedWords m).

(** [arr.filter((match, index, arr) => !arr.slice(0, index).some(...))]:
    [arr] is the array being filtered, so [arr.slice(0, index)] holds every
    candidate sorted before [match]. *)
Definition removeOverlapping (arr : list FuzzyMatchInfo) : list FuzzyMatchInfo :=
  List.map snd
    (List.filter
       (fun im => negb (existsb (fun prev => overlaps prev (snd im))
                          (firstn (fst im) arr)))
       (indexed arr)).

Definition fuzzyMatchPII (piiText : string) (words : list WordInfo)
    (threshold : Q) : list FuzzyMatchInfo :=
  removeOverlapping (sortDesc z_confidence (fuzzyCandidates piiText words threshold)).

(** ** mapPiiToBbox *)

(** A pushed record together with the word positions of the candidate it was
    built from. The positions are not part of the source's record; they are
    kept beside it to state which words a record covers. *)
Record Emitted := { e_positions : list nat; e_match : PiiMatch }.

(** The variables of [mapPiiToBbox]: [piiData] and [piiIdCounter] live for
    the whole call, [instanceCount] and [foundPositions] for one phrase. *)
Record State := {
  instanceCount : nat;
  foundPositions : gset nat;
  piiIdCounter : nat;
  piiData : list Emitted
}.

(** [positions.forEach(pos => foundPositions.add(pos))]. *)
Definition addAll (positions : list nat) (found : gset nat) : gset nat :=
  fold_left (fun f pos => {[pos]} ∪ f) positions found.

(** The positions [i + j] for [0 <= j < len]. *)
Definition windowAt (i len : nat) : list nat :=
  List.map (fun j => i + j) (seq 0 len).

(** [if (match) piiData.push(match)]. *)
Definition pushMatch (positions : list nat) (m : option PiiMatch)
    (data : list Emitted) : list Emitted :=
  match m with
  | Some r => data ++ [ {| e_positions := positions; e_match := r |} ]
  | None => data
  end.

Section Phrase.
Variables (pii : Pii) (wordMap : list WordInfo).

(** Step 1, the body of the loop over [i] for one variant. *)
Definition exactAt (variant : Variant) (st : State) (i : nat) : State :=
  if bool_decide (i ∈ foundPositions st) then st
  else
    let wordSlice := sliceWords wordMap i (i + length variant) in
    let sliceText := List.map text wordSlice in
    if variant_eqb sliceText variant then
      let m := createPiiMatch wordSlice (piiIdCounter st) pii 1
                 (ExactVariant variant) in
      let window := windowAt i (length variant) in
      {| instanceCount := S (instanceCount st);
         foundPositions := addAll window ({[i]} ∪ foundPositions st);
         piiIdCounter := S (piiIdCounter st);
         piiData := pushMatch window m (piiData st) |}
    else st.

(** [for (let i = 0; i <= wordMap.length - variant.length; i++)]. *)
Definition exactVariant (st : State) (variant : Variant) : State :=
  fold_left (exactAt variant) (seq 0 (S (length wordMap) - length variant)) st.

Definition exactStep (searchVariants : list Variant) (st : State) : State :=
  fold_left exactVariant searchVariants st.

(** Step 2, the body of the loop over [flexibleMatches]. *)
Definition flexibleAt (st : State) (flexMatch : FlexMatch) : State :=
  let m := createPiiMatch (f_words flexMatch) (piiIdCounter st) pii
             (f_confidence flexMatch)
             (FlexibleMatch (length (f_matchedWords flexMatch))) in
  match m with
  | Some _ =>
      {| instanceCount := S (instanceCount st);
         foundPositions := addAll (f_positions flexMatch) (foundPositions st);
         piiIdCounter := S (piiIdCounter st);
         piiData := pushMatch (f_positions flexMatch) m (piiData st) |}
  | None =>
      {| instanceCount := instanceCount st;
         foundPositions := foundPositions st;
         piiIdCounter := S (piiIdCounter st);
         piiData := piiData st |}
  end.

(** The guard of step 2. *)
Definition flexibleRuns (searchVariants : list Variant) (st : State) : bool :=
  existsb (fun variant => 4 <=? length variant) searchVariants
  && (instanceCount st =? 0).

Definition flexibleStep (searchVariants : list Variant) (st : State) : State :=
  if flexibleRuns searchVariants st
  then fold_left flexibleAt
         (findFlexibleMatches searchVariants wordMap (foundPositions st)) st
  else st.

(** Step 3, the body of the loop over [fuzzyMatches]. *)
Definition fuzzyAt (st : State) (fuzzyMatch : FuzzyMatchInfo) : State :=
  if bool_decide (z_position fuzzyMatch ∈ foundPositions st) then st
  else
    let wordSlice :=
      sliceWords wordMap (z_position fuzzyMatch)
        (z_position fuzzyMatch + z_matchedWords fuzzyMatch) in
    let m := createPiiMatch wordSlice (piiIdCounter st) pii
               (z_confidence fuzzyMatch)
               (FuzzyMatch (z_confidence fuzzyMatch)) in
    let window :=
      windowAt (z_position fuzzyMatch) (z_matchedWords fuzzyMatch) in
    match m with
    | Some _ =>
        {| instanceCount := S (instanceCount st);
           foundPositions := addAll window (foundPositions st);
           piiIdCounter := S (piiIdCounter st);
           piiData := pushMatch window m (piiData st) |}
    | None =>
        {| instanceCount := instanceCount st;
           foundPositions := foundPositions st;
           piiIdCounter := S (piiIdCounter st);
           piiData := piiData st |}
    end.

Definition fuzzyStep (st : State) : State :=
  if instanceCount st <? 2
  then fold_left fuzzyAt (fuzzyMatchPII (pii_text pii) wordMap (85 # 100)) st
  else st.
End Phrase.

(** The callback of [piiList.forEach]; [st] carries [piiData] and
    [piiIdCounter] in, and the phrase starts with a fresh [instanceCount] and
    [foundPositions]. *)
Definition processPii (wordMap : list WordInfo) (st : State) (pii : Pii)
  : State :=
  let searchVariants := createSearchVariants (pii_text pii) in
  let st0 := {| instanceCount := 0; foundPositions := ∅;
                piiIdCounter := piiIdCounter st; piiData := piiData st |} in
  let st1 := exactStep pii wordMap searchVariants st0 in
  let st2 := flexibleStep pii wordMap searchVariants st1 in
  fuzzyStep pii wordMap st2.

(** [words.map((w) => ({ text: w.text.replace(...), boundingBox: ... }))]. *)
Definition normalizeWords (words : list WordInfo) : list WordInfo :=
  List.map (fun w => {| text := Js.stripNonAlnum (text w);
                        boundingBox := boundingBox w |}) words.

Definition initialState : State :=
  {| instanceCount := 0; foundPositions := ∅; piiIdCounter := 0; piiData := [] |}.

(** [piiData] at the end of the call, with the positions kept beside each
    record. *)
Definition mapPiiToBboxTrace (piiList : list Pii) (words : list WordInfo)
  : list Emitted :=
  piiData (fold_left (processPii (normalizeWords words)) piiList initialState).

Definition mapPiiToBbox (piiList : list Pii) (words : list WordInfo)
  : list PiiMatch :=
  List.map e_match (mapPiiToBboxTrace piiList words).

(** ** Example inputs *)

(** A word with the four corners of an axis-aligned box as its polygon. *)
Definition boxWord (t : string) (x y : Z) : WordInfo :=
  {| text := t;
     boundingBox :=
       Some {| vertices :=
                 Some [ {| vx := Some x; vy := Some y |};
                        {| vx := Some (x + 8)%Z; vy := Some y |};
                        {| vx := Some (x + 8)%Z; vy := Some (y + 4)%Z |};
                        {| vx := Some x; vy := Some (y + 4)%Z |} ] |} |}.

(** A word the OCR collaborator returned without a polygon. *)
Definition bareWord (t : string) : WordInfo :=
  {| text := t; boundingBox := None |}.

Definition phrase (t : string) : Pii := {| pii_text := t; pii_label := "Name" |}.

(** ** Vocabulary of the properties *)

(** [lo] is the least and [hi] the greatest element of [cs]. *)
Definition Extremes (cs : list Z) (lo hi : Z) : Prop :=
  In lo cs /\ In hi cs /\ forall c, In c cs -> (lo <= c <= hi)%Z.

Definition idOf (e : Emitted) : nat := m_id (e_match e).

(** From [st] to [st'] the counter did not go back, [piiData] was only
    appended to, and the records appended satisfy [P], carry ids taken from
    the counter in between, in increasing order. *)
Definition Grows (P : Emitted -> Prop) (st st' : State) : Prop :=
  piiIdCounter st <= piiIdCounter st'
  /\ exists new,
       piiData st' = piiData st ++ new
       /\ List.Forall (fun e => P e /\ piiIdCounter st <= idOf e < piiIdCounter st') new
       /\ StronglySorted lt (List.map idOf new).

(** What every record pushed while [pii] is processed looks like. *)
Definition RecordOf (pii : Pii) (e : Emitted) : Prop :=
  m_text (e_match e) = pii_text pii
  /\ m_label (e_match e) = pii_label pii
  /\ m_redacted (e_match e) = true.

(** The word at position [p] has the text [tok]. *)
Definition wordIs (wordMap : list WordInfo) (tok : string) (p : nat) : Prop :=
  exists w, wordMap !! p = Some w /\ text w = tok.

(** One position per token of the variant, each holding that token, no
    position used twice. *)
Definition CompleteAssignment (wordMap : list WordInfo) (variant : Variant)
    (positions : list nat) : Prop :=
  Forall2 (wordIs wordMap) variant positions /\ List.NoDup positions.

Definition flexMatchOf (wordMap : list WordInfo) (variant : Variant)
    (positions : list nat) : FlexMatch :=
  {| f_words := wordsAt wordMap positions;
     f_confidence := flexConfidence (spanOf positions);
     f_matchedWords := variant;
     f_positions := positions |}.

(** [span] is [max(position) - min(position) + 1] of a non-empty
    combination. *)
Definition SpanIs (positions : list nat) (span : nat) : Prop :=
  exists lo hi,
    In lo positions /\ In hi positions
    /\ (forall p, In p positions -> lo <= p <= hi)
    /\ span = hi - lo + 1.

(** [c] is [Math.max(0.7, 1 - span / 100)]. *)
Definition MaxConfidence (span : nat) (c : Q) : Prop :=
  let d := (1 - inject_Z (Z.of_nat span) / 100)%Q in
  (7 # 10 <= c)%Q /\ (d <= c)%Q /\ (c = (7 # 10)%Q \/ c = d).

(** The words A, B, then [gap] other words, then C. *)
Definition spreadWords (gap : nat) : list WordInfo :=
  [boxWord "A" 0 0; boxWord "B" 10 0] ++ repeat (boxWord "x" 20 0) gap
  ++ [boxWord "C" 30 0].

(** No window of the word list equals a variant: the exact step found no
    occurrence. *)
Definition NoExactOccurrence (searchVariants : list Variant)
    (wordMap : list WordInfo) : Prop :=
  forall variant i,
    In variant searchVariants ->
    i + length variant <= length wordMap ->
    List.map text (sliceWords wordMap i (i + length variant)) <> variant.

(** The starts of [prev] and [m] are at least [max] of the two window
    lengths apart. *)
Definition Far (prev m : FuzzyMatchInfo) : Prop :=
  let d := Nat.max (z_matchedWords prev) (z_matchedWords m) in
  z_position prev + d <= z_position m \/ z_position m + d <= z_position prev.

(** The words of the example for the suppression filter: the phrase itself
    at position 2, one character before it at position 1, and a one-letter
    misreading of the phrase at position 0. *)
Definition chainWords : list WordInfo :=
  [boxWord "abcdefghiX" 0 0; boxWord "x" 100 0; boxWord "abcdefghij" 110 0].

Definition chainBest : FuzzyMatchInfo :=
  {| z_position := 2;
     z_confidence := similarityOf "abcdefghij" "abcdefghij";
     z_matchedWords := 1 |}.

Definition chainMiddle : FuzzyMatchInfo :=
  {| z_position := 1;
     z_confidence := similarityOf "abcdefghij" "xabcdefghij";
     z_matchedWords := 2 |}.

Definition chainLast : FuzzyMatchInfo :=
  {| z_position := 0;
     z_confidence := similarityOf "abcdefghij" "abcdefghix";
     z_matchedWords := 1 |}.

(** No two records of [new] cover a common word position. *)
Definition NoSharedPosition (new : list Emitted) : Prop :=
  forall i j e1 e2 p,
    i <> j -> new !! i = Some e1 -> new !! j = Some e2 ->
    In p (e_positions e1) -> ~ In p (e_positions e2).

Definition isFlexible (e : Emitted) : Prop :=
  exists n, m_matchType (e_match e) = FlexibleMatch n.

(** Every exact or fuzzy record of [new] starts at a position that no record
    pushed before it covers. *)
Definition StartsUnclaimed (new : list Emitted) : Prop :=
  forall i j e1 e2,
    i < j -> new !! i = Some e1 -> new !! j = Some e2 ->
    ~ isFlexible e2 ->
    exists p rest, e_positions e2 = p :: rest /\ ~ In p (e_positions e1).

(** The positions of the records of [new] are all claimed. *)
Definition Covered (found : gset nat) (new : list Emitted) : Prop :=
  forall e p, In e new -> In p (e_positions e) -> p ∈ found.

(** The record was built from an exact occurrence of [variant]. *)
Definition exactOf (variant : Variant) (e : Emitted) : Prop :=
  m_matchType (e_match e) = ExactVariant variant.

Definition isFuzzy (e : Emitted) : Prop :=
  exists c, m_matchType (e_match e) = FuzzyMatch c.

(** Two fuzzy records, or two exact records of one variant. *)
Definition SameSearch (e1 e2 : Emitted) : Prop :=
  (isFuzzy e1 /\ isFuzzy e2)
  \/ (exists variant, exactOf variant e1 /\ exactOf variant e2).

(** Two records of the same search cover no common word position. *)
Definition SameSearchDisjoint (new : list Emitted) : Prop :=
  forall i j e1 e2 p,
    i < j -> new !! i = Some e1 -> new !! j = Some e2 ->
    SameSearch e1 e2 ->
    In p (e_positions e1) -> ~ In p (e_positions e2).

(** Every exact record covers the window of its variant at a start that
    [allowed] admits. *)
Definition ExactFrom (allowed : Variant -> nat -> Prop) (new : list Emitted)
  : Prop :=
  forall e variant,
    In e new -> exactOf variant e ->
    exists s, e_positions e = windowAt s (length variant) /\ allowed variant s.

(** Every fuzzy record covers the window of a candidate of [seen]. *)
Definition FuzzyFrom (seen : list FuzzyMatchInfo) (new : list Emitted) : Prop :=
  forall e,
    In e new -> isFuzzy e ->
    exists c, In c seen
              /\ e_positions e = windowAt (z_position c) (z_matchedWords c).

(** The state of a phrase whose processing began with [base] in [piiData]. *)
Definition PhraseInv (base : list Emitted) (allowed : Variant -> nat -> Prop)
    (seen : list FuzzyMatchInfo) (st : State) : Prop :=
  exists new,
    piiData st = base ++ new
    /\ StartsUnclaimed new
    /\ Covered (foundPositions st) new
    /\ SameSearchDisjoint new
    /\ ExactFrom allowed new
    /\ FuzzyFrom seen new.

(** The starts admitted while the exact loop of [variant] is at index [k],
    after the loops of the variants of [done]. *)
Definition duringVariant (done : list Variant) (variant : Variant) (k : nat)
  : Variant -> nat -> Prop :=
  fun v s => In v done \/ (v = variant /\ s < k).

Definition afterVariants (done : list Variant) : Variant -> nat -> Prop :=
  fun v _ => In v done.

(** The words of the example of two flexible combinations. *)
Definition twiceWords : list WordInfo :=
  [boxWord "A" 0 0; boxWord "x" 10 0; boxWord "B" 20 0; boxWord "CD" 30 0;
   boxWord "A" 40 0].

(** The words of the example of two exact occurrences. *)
Definition sharedWords : list WordInfo :=
  [boxWord "B" 0 0; boxWord "A" 10 0; boxWord "B" 20 0; boxWord "AB" 30 0].

(** Every character of [s] is a letter or a digit. *)
Definition AlnumOnly (s : string) : Prop :=
  List.Forall (fun c => Js.is_alnum c = true) (Js.chars s).

(** The windows of the two candidates have no word position in common. *)
Definition WindowsDisjoint (m1 m2 : FuzzyMatchInfo) : Prop :=
  forall p,
    In p (windowAt (z_position m1) (z_matchedWords m1)) ->
    ~ In p (windowAt (z_position m2) (z_matchedWords m2)).

(** [bbox] is the axis-aligned envelope of the coordinates of [vs]: its
    corner holds the least, and corner plus extent the greatest, [x] and
    [y]. *)
Definition Envelope (vs : list Vertex) (bbox : Z * Z * Z * Z) : Prop :=
  let '(x0, y0, w, h) := bbox in
  Extremes (coords vx vs) x0 (x0 + w)%Z /\ Extremes (coords vy vs) y0 (y0 + h)%Z.

(** The record covers at least one position, all inside [words]; its
    vertices are the vertices with two numeric coordinates of the words at
    these positions, in order, there is at least one, and its box is their
    envelope. *)
Definition Geometry (words : list WordInfo) (e : Emitted) : Prop :=
  e_positions e <> []
  /\ (forall p, In p (e_positions e) -> p < length words)
  /\ m_vertices (e_match e)
     = List.filter validVertex
         (flat_map verticesOf (wordsAt words (e_positions e)))
  /\ m_vertices (e_match e) <> []
  /\ Envelope (m_vertices (e_match e)) (m_bbox (e_match e)).

(** What the strategy of a record says about its confidence and its
    positions. *)
Definition Scored (e : Emitted) : Prop :=
  match m_matchType (e_match e) with
  | ExactVariant variant =>
      m_confidence (e_match e) = 1%Q
      /\ exists i, e_positions e = windowAt i (length variant)
  | FlexibleMatch n =>
      n = length (e_positions e) /\ 3 <= n
      /\ (8 # 10 <= m_confidence (e_match e) <= 97 # 100)%Q
  | FuzzyMatch c =>
      m_confidence (e_match e) = c
      /\ (85 # 100 <= c <= 1)%Q
      /\ exists i span, 1 <= span <= 5 /\ e_positions e = windowAt i span
  end.

Definition Detail (wordMap : list WordInfo) (e : Emitted) : Prop :=
  Geometry wordMap e /\ Scored e.

(** The record [r] with its id moved up by [k]. *)
Definition shiftId (k : nat) (r : PiiMatch) : PiiMatch :=
  {| m_id := m_id r + k;
     m_label := m_label r;
     m_text := m_text r;
     m_bbox := m_bbox r;
     m_vertices := m_vertices r;
     m_redacted := m_redacted r;
     m_confidence := m_confidence r;
     m_matchType := m_matchType r |}.

Definition shiftEmitted (k : nat) (e : Emitted) : Emitted :=
  {| e_positions := e_positions e; e_match := shiftId k (e_match e) |}.

(** [st2] is [st1] run with [k] ids already taken and [base] already
    pushed. *)
Definition Shifted (k : nat) (base : list Emitted) (st1 st2 : State) : Prop :=
  instanceCount st2 = instanceCount st1
  /\ foundPositions st2 = foundPositions st1
  /\ piiIdCounter st2 = piiIdCounter st1 + k
  /\ piiData st2 = base ++ List.map (shiftEmitted k) (piiData st1).

(** The phrase has been found once, as [e], and every position of the word
    list is claimed. *)
Definition FoundWhole (n : nat) (e : Emitted) (st : State) : Prop :=
  piiData st = [e]
  /\ (forall p, p < n -> p ∈ foundPositions st)
  /\ 1 <= instanceCount st.

(** ** The client (apps/web/app/page.tsx) *)

(** [{ ...pii, redacted: !pii.redacted }]. *)
Definition flipRedacted (pii : PiiMatch) : PiiMatch :=
  {| m_id := m_id pii;
     m_label := m_label pii;
     m_text := m_text pii;
     m_bbox := m_bbox pii;
     m_vertices := m_vertices pii;
     m_redacted := negb (m_redacted pii);
     m_confidence := m_confidence pii;
     m_matchType := m_matchType pii |}.

(** The state update of [toggleRedaction]:
    [prev.map((pii) => (pii.id === id ? { ...pii, redacted: !pii.redacted } : pii))]. *)
Definition toggleRedaction (id : nat) (prev : list PiiMatch) : list PiiMatch :=
  List.map (fun pii => if m_id pii =? id then flipRedacted pii else pii) prev.

(** The test of the drawing loop:
    [pii.redacted && pii.vertices && pii.vertices.length > 0]; the records
    of the server always carry a [vertices] array. *)
Definition isDrawn (pii : PiiMatch) : bool :=
  m_redacted pii && (0 <? length (m_vertices pii)).

Definition PROCESSING_MESSAGES : list string :=
  [ "Processing with AI...";
    "Scanning for sensitive information...";
    "Detecting personal data...";
    "Analyzing document structure...";
    "Extracting text with OCR...";
    "Identifying patterns and information...";
    "Running smart detection algorithms...";
    "Mapping text locations...";
    "Almost there...";
    "Finalizing results..." ].

(** [PROCESSING_MESSAGES.indexOf(prev)]; [None] is the source's [-1]. *)
Definition indexOfMessage (prev : string) : option nat :=
  findIndex (String.eqb prev) PROCESSING_MESSAGES.

(** The update of the message timer:
    [PROCESSING_MESSAGES[(currentIndex + 1) % PROCESSING_MESSAGES.length]];
    for [currentIndex = -1] the next index is 0. *)
Definition nextMessage (prev : string) : string :=
  let nextIndex :=
    match indexOfMessage prev with
    | Some currentIndex => (currentIndex + 1) mod length PROCESSING_MESSAGES
    | None => 0 mod length PROCESSING_MESSAGES
    end in
  nth nextIndex PROCESSING_MESSAGES "".

(** * Properties *)

(** ** The bounding box *)

Lemma fold_min_le (l : list Z) (a : Z) :
  (fold_left Z.min l a <= a)%Z /\ Forall (fun c => (fold_left Z.min l a <= c)%Z) l.
Proof.
  revert a. induction l as [|c l IH]; intros a; simpl.
  - split; [lia | constructor].
  - destruct (IH (Z.min a c)) as [H1 H2]. split; [lia |].
    constructor; [lia | exact H2].
Qed.

Lemma fold_min_in (l : list Z) (a : Z) : In (fold_left Z.min l a) (a :: l).
Proof.
  revert a. induction l as [|c l IH]; intros a; simpl.
  - now left.
  - destruct (IH (Z.min a c)) as [H | H].
    + destruct (Z.min_spec a c) as [[_ E] | [_ E]]; [left | right; left]; congruence.
    + right. now right.
Qed.

Lemma fold_max_ge (l : list Z) (a : Z) :
  (a <= fold_left Z.max l a)%Z /\ Forall (fun c => (c <= fold_left Z.max l a)%Z) l.
Proof.
  revert a. induction l as [|c l IH]; intros a; simpl.
  - split; [lia | constructor].
  - destruct (IH (Z.max a c)) as [H1 H2]. split; [lia |].
    constructor; [lia | exact H2].
Qed.

Lemma fold_max_in (l : list Z) (a : Z) : In (fold_left Z.max l a) (a :: l).
Proof.
  revert a. induction l as [|c l IH]; intros a; simpl.
  - now left.
  - destruct (IH (Z.max a c)) as [H | H].
    + destruct (Z.max_spec a c) as [[_ E] | [_ E]]; [right; left | left]; congruence.
    + right. now right.
Qed.

Lemma minOf_maxOf_extremes (cs : list Z) :
  cs <> [] -> Extremes cs (minOf cs) (maxOf cs).
Proof.
  destruct cs as [|a l]; [congruence | intros _].
  unfold Extremes, minOf, maxOf.
  pose proof (fold_min_le l a) as [Hmin Hmins].
  pose proof (fold_max_ge l a) as [Hmax Hmaxs].
  rewrite List.Forall_forall in Hmins, Hmaxs.
  repeat split.
  - apply fold_min_in.
  - apply fold_max_in.
  - destruct H as [<- | H]; [exact Hmin | now apply Hmins].
  - destruct H as [<- | H]; [exact Hmax | now apply Hmaxs].
Qed.

Lemma coords_nonempty (proj : Vertex -> option Z) (vs : list Vertex) :
  vs <> [] -> Forall (fun v => is_Some (proj v)) vs -> coords proj vs <> [].
Proof.
  destruct vs as [|v vs]; [congruence | intros _ H].
  inversion H as [|? ? [c Hc] _]; subst. simpl. rewrite Hc. discriminate.
Qed.

Lemma validVertex_spec (v : Vertex) :
  validVertex v = true <-> is_Some (vx v) /\ is_Some (vy v).
Proof.
  unfold validVertex. destruct (vx v), (vy v); split; intros H;
    try discriminate; try reflexivity.
  - split; eauto.
  - destruct H as [_ [? ?]]. discriminate.
  - destruct H as [[? ?] _]. discriminate.
  - destruct H as [[? ?] _]. discriminate.
Qed.

(** C7. [createPiiMatch] keeps exactly the vertices whose [x] and [y] are
    both numbers, in their original order; it returns no record if and only
    if none is left; otherwise the record carries those vertices and the box
    [[x0, y0, x1 - x0, y1 - y0]], where [x0], [y0] are the least and [x1],
    [y1] the greatest coordinates of the vertices kept. In each of the three
    loops a candidate handed to [createPiiMatch] is pushed exactly when a
    record comes back. *)
Theorem createPiiMatch_envelope (wordSlice : list WordInfo) (id : nat)
    (pii : Pii) (confidence : Q) (matchType : MatchType) :
  let validVertices := List.filter validVertex (flat_map verticesOf wordSlice) in
  (forall v, In v validVertices <->
             In v (flat_map verticesOf wordSlice)
             /\ is_Some (vx v) /\ is_Some (vy v))
  /\ (createPiiMatch wordSlice id pii confidence matchType = None
      <-> validVertices = [])
  /\ (forall r, createPiiMatch wordSlice id pii confidence matchType = Some r ->
        m_vertices r = validVertices
        /\ exists x0 y0 x1 y1,
             m_bbox r = (x0, y0, (x1 - x0)%Z, (y1 - y0)%Z)
             /\ Extremes (coords vx validVertices) x0 x1
             /\ Extremes (coords vy validVertices) y0 y1)
  /\ (forall (wordMap : list WordInfo) (st : State),
        (forall variant i,
            i ∉ foundPositions st ->
            List.map text (sliceWords wordMap i (i + length variant)) = variant ->
            piiData (exactAt pii wordMap variant st i)
            = pushMatch (windowAt i (length variant))
                (createPiiMatch (sliceWords wordMap i (i + length variant))
                   (piiIdCounter st) pii 1 (ExactVariant variant))
                (piiData st))
        /\ (forall flexMatch,
              piiData (flexibleAt pii st flexMatch)
              = pushMatch (f_positions flexMatch)
                  (createPiiMatch (f_words flexMatch) (piiIdCounter st) pii
                     (f_confidence flexMatch)
                     (FlexibleMatch (length (f_matchedWords flexMatch))))
                  (piiData st))
        /\ (forall fuzzyMatch,
              z_position fuzzyMatch ∉ foundPositions st ->
              piiData (fuzzyAt pii wordMap st fuzzyMatch)
              = pushMatch
                  (windowAt (z_position fuzzyMatch) (z_matchedWords fuzzyMatch))
                  (createPiiMatch
                     (sliceWords wordMap (z_position fuzzyMatch)
                        (z_position fuzzyMatch + z_matchedWords fuzzyMatch))
                     (piiIdCounter st) pii (z_confidence fuzzyMatch)
                     (FuzzyMatch (z_confidence fuzzyMatch)))
                  (piiData st))).
Proof.
  intros validVertices. split; [| split; [| split]]; cycle 3.
  { intros wordMap st. split; [| split].
    - intros variant i Hfree Heq. unfold exactAt.
      rewrite bool_decide_eq_false_2 by exact Hfree.
      unfold variant_eqb. rewrite bool_decide_eq_true_2 by exact Heq.
      reflexivity.
    - intros flexMatch. unfold flexibleAt.
      destruct (createPiiMatch _ _ _ _ _); reflexivity.
    - intros fuzzyMatch Hfree. unfold fuzzyAt.
      rewrite bool_decide_eq_false_2 by exact Hfree.
      destruct (createPiiMatch _ _ _ _ _); reflexivity. }
  - intros v. unfold validVertices. rewrite filter_In, validVertex_spec. tauto.
  - unfold createPiiMatch. fold validVertices.
    destruct validVertices; simpl; split; intros H; congruence.
  - intros r. unfold createPiiMatch. fold validVertices.
    destruct (length validVertices =? 0) eqn:E; [discriminate |].
    intros [= <-]. simpl. split; [reflexivity |].
    assert (Hne : validVertices <> []).
    { intros H0. rewrite H0 in E. discriminate. }
    assert (Hall : Forall (fun v => is_Some (vx v) /\ is_Some (vy v)) validVertices).
    { apply List.Forall_forall. intros v Hv. apply validVertex_spec.
      unfold validVertices in Hv. apply filter_In in Hv. tauto. }
    eexists _, _, _, _. split; [reflexivity |]. split.
    + apply minOf_maxOf_extremes, coords_nonempty; [exact Hne |].
      eapply Forall_impl; [exact Hall |]. intros ? [? ?]; assumption.
    + apply minOf_maxOf_extremes, coords_nonempty; [exact Hne |].
      eapply Forall_impl; [exact Hall |]. intros ? [? ?]; assumption.
Qed.

Lemma createPiiMatch_envelope_witness :
  let ws := [bareWord "X"; boxWord "A" 3 5] in
  exists r,
    createPiiMatch ws 0 (phrase "A") 1 (ExactVariant ["X"; "A"]) = Some r
    /\ m_vertices r = List.filter validVertex (flat_map verticesOf ws)
    /\ m_bbox r = (3, 5, 8, 4)%Z.
Proof.
  intros ws.
  destruct (createPiiMatch ws 0 (phrase "A") 1 (ExactVariant ["X"; "A"]))
    as [r|] eqn:E; [| discriminate E].
  exists r. split; [reflexivity |].
  destruct (createPiiMatch_envelope ws 0 (phrase "A") 1 (ExactVariant ["X"; "A"]))
    as (_ & _ & H & _).
  destruct (H r E) as (Hv & _). split; [exact Hv |].
  vm_compute in E. injection E as <-. reflexivity.
Defined.

(** ** Records and ids along the pipeline *)

Lemma StronglySorted_lt_app (l1 l2 : list nat) (k : nat) :
  StronglySorted lt l1 -> StronglySorted lt l2 ->
  List.Forall (fun x => x < k) l1 -> List.Forall (fun x => k <= x) l2 ->
  StronglySorted lt (l1 ++ l2).
Proof.
  intros S1 S2 F1 F2. induction S1 as [|a l1 S1 IH Ha]; simpl; [exact S2 |].
  inversion F1; subst. constructor; [now apply IH |].
  apply List.Forall_app. split; [exact Ha |].
  eapply List.Forall_impl; [| exact F2]. simpl. intros; lia.
Qed.

Section GrowsFacts.
Variable P : Emitted -> Prop.

Lemma Grows_refl (st : State) : Grows P st st.
Proof.
  split; [lia |]. exists []. rewrite app_nil_r.
  repeat split; constructor.
Qed.

Lemma Grows_same_data (st st' : State) :
  piiData st' = piiData st -> piiIdCounter st <= piiIdCounter st' ->
  Grows P st st'.
Proof.
  intros Hd Hc. split; [exact Hc |]. exists []. rewrite app_nil_r.
  repeat split; [exact Hd | constructor | constructor].
Qed.

Lemma Grows_trans (st1 st2 st3 : State) :
  Grows P st1 st2 -> Grows P st2 st3 -> Grows P st1 st3.
Proof.
  intros (Hc1 & n1 & Hd1 & F1 & S1) (Hc2 & n2 & Hd2 & F2 & S2).
  split; [lia |]. exists (n1 ++ n2). split; [| split].
  - rewrite Hd2, Hd1, app_assoc. reflexivity.
  - apply List.Forall_app. split.
    + eapply List.Forall_impl; [| exact F1]. simpl. intros e [? ?]. split; [assumption | lia].
    + eapply List.Forall_impl; [| exact F2]. simpl. intros e [? ?]. split; [assumption | lia].
  - rewrite List.map_app.
    apply (StronglySorted_lt_app _ _ (piiIdCounter st2)); try assumption.
    + apply List.Forall_map.
      eapply List.Forall_impl; [| exact F1]. simpl. intros e [? ?]. lia.
    + apply List.Forall_map.
      eapply List.Forall_impl; [| exact F2]. simpl. intros e [? ?]. lia.
Qed.

Lemma Grows_fold_left {X} (f : State -> X -> State) (l : list X) :
  (forall st x, In x l -> Grows P st (f st x)) ->
  forall st, Grows P st (fold_left f l st).
Proof.
  induction l as [|x l IH]; intros Hf st; simpl.
  - apply Grows_refl.
  - eapply Grows_trans; [apply Hf; now left |].
    apply IH. intros st' y Hy. apply Hf. now right.
Qed.

(** The one way the steps change [piiData]: a call of [createPiiMatch] with
    the current counter, the counter incremented, the result pushed. *)
Lemma Grows_push (st st' : State) (positions : list nat) (m : option PiiMatch) :
  piiIdCounter st' = S (piiIdCounter st) ->
  piiData st' = pushMatch positions m (piiData st) ->
  (forall r, m = Some r ->
     m_id r = piiIdCounter st
     /\ P {| e_positions := positions; e_match := r |}) ->
  Grows P st st'.
Proof.
  intros Hc Hd Hm. destruct m as [r|]; simpl in Hd.
  - destruct (Hm r eq_refl) as [Hid HP].
    split; [lia |]. exists [ {| e_positions := positions; e_match := r |} ].
    split; [exact Hd | split].
    + constructor; [| constructor]. split; [exact HP |].
      unfold idOf; simpl. lia.
    + repeat constructor.
  - apply Grows_same_data; [exact Hd | lia].
Qed.
End GrowsFacts.

Lemma Grows_weaken (P Q : Emitted -> Prop) (st st' : State) :
  (forall e, P e -> Q e) -> Grows P st st' -> Grows Q st st'.
Proof.
  intros HPQ (Hc & new & Hd & F & S). split; [exact Hc |].
  exists new. repeat split; try assumption.
  eapply List.Forall_impl; [| exact F]. simpl. intros e [? ?]. split; auto.
Qed.

Lemma createPiiMatch_fields (wordSlice : list WordInfo) (id : nat) (pii : Pii)
    (confidence : Q) (matchType : MatchType) (r : PiiMatch) :
  createPiiMatch wordSlice id pii confidence matchType = Some r ->
  m_id r = id /\ m_text r = pii_text pii /\ m_label r = pii_label pii
  /\ m_redacted r = true /\ m_matchType r = matchType
  /\ flat_map verticesOf wordSlice <> [].
Proof.
  unfold createPiiMatch.
  destruct (length _ =? 0) eqn:E; [discriminate |].
  intros [= <-]. simpl. repeat split.
  intros H0. rewrite H0 in E. discriminate.
Qed.

Section PhraseGrows.
Variables (pii : Pii) (wordMap : list WordInfo).

Lemma exactAt_Grows (variant : Variant) (st : State) (i : nat) :
  Grows (RecordOf pii) st (exactAt pii wordMap variant st i).
Proof.
  unfold exactAt.
  destruct (bool_decide _); [apply Grows_refl |].
  destruct (variant_eqb _ _); [| apply Grows_refl].
  eapply Grows_push; simpl; [reflexivity | reflexivity |].
  intros r Hr. apply createPiiMatch_fields in Hr.
  unfold RecordOf; simpl. tauto.
Qed.

Lemma exactStep_Grows (searchVariants : list Variant) (st : State) :
  Grows (RecordOf pii) st (exactStep pii wordMap searchVariants st).
Proof.
  unfold exactStep. apply Grows_fold_left. intros st' variant _.
  unfold exactVariant. apply Grows_fold_left. intros st'' i _.
  apply exactAt_Grows.
Qed.

Lemma flexibleAt_Grows (st : State) (flexMatch : FlexMatch) :
  Grows (RecordOf pii) st (flexibleAt pii st flexMatch).
Proof.
  unfold flexibleAt.
  destruct (createPiiMatch _ _ _ _ _) as [r|] eqn:E.
  - apply (Grows_push _ _ _ (f_positions flexMatch) (Some r));
      [reflexivity | reflexivity |].
    intros r' [= <-]. apply createPiiMatch_fields in E.
    unfold RecordOf; simpl. tauto.
  - apply Grows_same_data; simpl; [reflexivity | lia].
Qed.

Lemma flexibleStep_Grows (searchVariants : list Variant) (st : State) :
  Grows (RecordOf pii) st (flexibleStep pii wordMap searchVariants st).
Proof.
  unfold flexibleStep. destruct (flexibleRuns _ _); [| apply Grows_refl].
  apply Grows_fold_left. intros st' fm _. apply flexibleAt_Grows.
Qed.

Lemma fuzzyAt_Grows (st : State) (fuzzyMatch : FuzzyMatchInfo) :
  Grows (RecordOf pii) st (fuzzyAt pii wordMap st fuzzyMatch).
Proof.
  unfold fuzzyAt.
  destruct (bool_decide _); [apply Grows_refl |].
  destruct (createPiiMatch _ _ _ _ _) as [r|] eqn:E.
  - apply (Grows_push _ _ _
             (List.map (fun j => z_position fuzzyMatch + j)
                (seq 0 (z_matchedWords fuzzyMatch))) (Some r));
      [reflexivity | reflexivity |].
    intros r' [= <-]. apply createPiiMatch_fields in E.
    unfold RecordOf; simpl. tauto.
  - apply Grows_same_data; simpl; [reflexivity | lia].
Qed.

Lemma fuzzyStep_Grows (st : State) :
  Grows (RecordOf pii) st (fuzzyStep pii wordMap st).
Proof.
  unfold fuzzyStep. destruct (_ <? _); [| apply Grows_refl].
  apply Grows_fold_left. intros st' fm _. apply fuzzyAt_Grows.
Qed.
End PhraseGrows.

Lemma processPii_Grows (wordMap : list WordInfo) (st : State) (pii : Pii) :
  Grows (RecordOf pii) st (processPii wordMap st pii).
Proof.
  unfold processPii.
  set (st0 := {| instanceCount := 0; foundPositions := ∅;
                 piiIdCounter := piiIdCounter st; piiData := piiData st |}).
  eapply Grows_trans; [apply (Grows_same_data _ st st0); simpl; [reflexivity | lia] |].
  eapply Grows_trans; [apply exactStep_Grows |].
  eapply Grows_trans; [apply flexibleStep_Grows |].
  apply fuzzyStep_Grows.
Qed.

Lemma mapPiiToBboxTrace_snoc (before : list Pii) (pii : Pii) (words : list WordInfo) :
  exists st,
    piiData st = mapPiiToBboxTrace before words
    /\ mapPiiToBboxTrace (before ++ [pii]) words
       = piiData (processPii (normalizeWords words) st pii).
Proof.
  exists (fold_left (processPii (normalizeWords words)) before initialState).
  split; [reflexivity |].
  unfold mapPiiToBboxTrace. rewrite fold_left_app. reflexivity.
Qed.

Lemma call_Grows (P : Emitted -> Prop) (piiList : list Pii) (words : list WordInfo) :
  (forall pii e, In pii piiList -> RecordOf pii e -> P e) ->
  Grows P initialState
    (fold_left (processPii (normalizeWords words)) piiList initialState).
Proof.
  intros HP. apply Grows_fold_left. intros st pii Hin.
  eapply Grows_weaken; [| apply processPii_Grows]. intros e. apply HP, Hin.
Qed.

(** C8. In one call of [mapPiiToBbox] every record takes its id from the one
    counter of the call: the ids of the output are strictly increasing in
    output order, hence pairwise different, and all below the final value of
    the counter. *)
Theorem mapPiiToBbox_ids_increasing (piiList : list Pii) (words : list WordInfo) :
  let ids := List.map m_id (mapPiiToBbox piiList words) in
  StronglySorted lt ids
  /\ List.NoDup ids
  /\ List.Forall
       (fun i => i < piiIdCounter
                       (fold_left (processPii (normalizeWords words)) piiList
                          initialState)) ids.
Proof.
  intros ids.
  destruct (call_Grows (fun _ => True) piiList words (fun _ _ _ _ => I))
    as (_ & new & Hd & F & S).
  simpl in Hd.
  assert (Hids : ids = List.map idOf new).
  { unfold ids, mapPiiToBbox, mapPiiToBboxTrace. rewrite Hd, List.map_map.
    reflexivity. }
  rewrite Hids. split; [exact S | split].
  - clear -S. induction S as [|a l S IH Ha]; constructor; [| exact IH].
    intros Hin. rewrite List.Forall_forall in Ha. specialize (Ha a Hin). lia.
  - apply List.Forall_map. eapply List.Forall_impl; [| exact F].
    simpl. intros e [_ ?]. lia.
Qed.

(** C10. The records pushed while a phrase is processed carry the raw text
    (and the label) of that phrase and [redacted = true]; so every record of
    the output has [redacted = true] and the text of one of the phrases of
    the call. *)
Theorem emitted_text_is_phrase_text (before : list Pii) (pii : Pii)
    (words : list WordInfo) :
  (exists new,
     mapPiiToBbox (before ++ [pii]) words = mapPiiToBbox before words ++ new
     /\ List.Forall (fun r => m_text r = pii_text pii
                            /\ m_label r = pii_label pii
                            /\ m_redacted r = true) new)
  /\ List.Forall (fun r => m_redacted r = true
                         /\ exists p, In p (before ++ [pii])
                                      /\ m_text r = pii_text p)
       (mapPiiToBbox (before ++ [pii]) words).
Proof.
  split.
  - destruct (mapPiiToBboxTrace_snoc before pii words) as (st & Hst & Heq).
    destruct (processPii_Grows (normalizeWords words) st pii)
      as (_ & new & Hd & F & _).
    exists (List.map e_match new). split.
    + unfold mapPiiToBbox. rewrite Heq, Hd, Hst, List.map_app. reflexivity.
    + apply List.Forall_map. eapply List.Forall_impl; [| exact F].
      simpl. intros e [? _]. assumption.
  - destruct (call_Grows
                (fun e => m_redacted (e_match e) = true
                          /\ exists p, In p (before ++ [pii])
                                       /\ m_text (e_match e) = pii_text p)
                (before ++ [pii]) words) as (_ & new & Hd & F & _).
    { intros p e Hin (Ht & _ & Hr). split; [exact Hr |]. exists p. tauto. }
    simpl in Hd. unfold mapPiiToBbox, mapPiiToBboxTrace. rewrite Hd.
    apply List.Forall_map. eapply List.Forall_impl; [| exact F].
    simpl. intros e [? _]. assumption.
Qed.

(** ** Claimed positions *)

Lemma elem_of_addAll (positions : list nat) (found : gset nat) (p : nat) :
  p ∈ addAll positions found <-> In p positions \/ p ∈ found.
Proof.
  unfold addAll. revert found.
  induction positions as [|q l IH]; intros found; simpl.
  - tauto.
  - rewrite IH. rewrite elem_of_union, elem_of_singleton.
    split; intros H; repeat destruct H as [H | H]; auto.
Qed.

Lemma in_window (i len p : nat) :
  In p (windowAt i len) <-> i <= p < i + len.
Proof.
  unfold windowAt. rewrite in_map_iff. split.
  - intros (j & <- & Hj). apply in_seq in Hj. lia.
  - intros H. exists (p - i). split; [lia |]. apply in_seq. lia.
Qed.



(** ** The fuzzy matcher *)

Lemma length_pos_iff (s : string) : (0 <? String.length s) = true <-> s <> "".
Proof.
  destruct s; simpl; split; intros H; try congruence; try reflexivity.
  discriminate.
Qed.



Lemma fuzzyAtWindow_spec (normalizedPii : string) (words : list WordInfo)
    (threshold : Q) (span i : nat) (m : FuzzyMatchInfo) :
  In m (fuzzyAtWindow normalizedPii words threshold span i) <->
  candidateAt words i span <> ""
  /\ (threshold <= similarityOf normalizedPii (candidateAt words i span))%Q
  /\ m = {| z_position := i;
            z_confidence := similarityOf normalizedPii (candidateAt words i span);
            z_matchedWords := span |}.
Proof.
  unfold fuzzyAtWindow.
  destruct (0 <? String.length (candidateAt words i span)) eqn:E.
  - apply length_pos_iff in E.
    destruct (Qle_bool threshold _) eqn:Q.
    + apply Qle_bool_iff in Q. simpl. split.
      * intros [<- | []]. auto.
      * intros (_ & _ & ->). now left.
    + simpl. split; [tauto |]. intros (_ & Hle & _).
      apply Qle_bool_iff in Hle. congruence.
  - simpl. split; [tauto |]. intros (Hne & _).
    apply length_pos_iff in Hne. congruence.
Qed.



(** ** The flexible matcher *)

Lemma in_combine_seq {A} (l : list A) (k i : nat) (x : A) :
  In (i, x) (combine (seq k (length l)) l) <-> k <= i /\ l !! (i - k) = Some x.
Proof.
  revert k. induction l as [|a l IH]; intros k; simpl.
  - split; [tauto | intros [_ H]; discriminate].
  - rewrite IH. split.
    + intros [[= <- <-] | [Hk Hl]].
      * split; [lia |]. now rewrite Nat.sub_diag.
      * split; [lia |]. replace (i - k) with (S (i - S k)) by lia. exact Hl.
    + intros [Hk Hl]. destruct (Nat.eq_dec i k) as [-> | Hne].
      * rewrite Nat.sub_diag in Hl. simpl in Hl. left. congruence.
      * right. split; [lia |].
        replace (i - k) with (S (i - S k)) in Hl by lia. exact Hl.
Qed.

Lemma in_indexed {A} (l : list A) (i : nat) (x : A) :
  In (i, x) (indexed l) <-> l !! i = Some x.
Proof.
  unfold indexed. rewrite in_combine_seq, Nat.sub_0_r.
  split; [tauto | intros H; split; [lia | exact H]].
Qed.

Lemma occurrences_spec (wordMap : list WordInfo) (tok : string) (p : nat) :
  In p (occurrences wordMap tok) <-> wordIs wordMap tok p.
Proof.
  unfold occurrences, wordIs. rewrite in_map_iff. split.
  - intros ([i w] & <- & Hin). apply filter_In in Hin as [Hin Heq].
    simpl in *. apply in_indexed in Hin. apply String.eqb_eq in Heq. eauto.
  - intros (w & Hw & Ht). exists (p, w). split; [reflexivity |].
    apply filter_In. split; [now apply in_indexed |].
    simpl. now apply String.eqb_eq.
Qed.

Lemma acceptable_spec (found : gset nat) (c : list nat) :
  acceptable found c = true <->
  spanOf c <= 20 /\ forall p, In p c -> p ∉ found.
Proof.
  unfold acceptable. rewrite andb_true_iff, Nat.leb_le, negb_true_iff.
  split; intros [Hs Hc]; (split; [exact Hs |]).
  - intros p Hp Hin.
    assert (existsb (fun pos => bool_decide (pos ∈ found)) c = true); [| congruence].
    apply existsb_exists. exists p. split; [exact Hp |].
    now apply bool_decide_eq_true_2.
  - apply not_true_is_false. intros H. apply existsb_exists in H as (p & Hp & Hd).
    apply bool_decide_eq_true_1 in Hd. exact (Hc p Hp Hd).
Qed.

Lemma findCombinations_spec (variant : Variant) (wordMap : list WordInfo)
    (found : gset nat) (remaining : list (list nat)) :
  forall (cur : list nat) (used : gset nat) (m : FlexMatch),
    In m (findCombinations variant wordMap found remaining cur used) <->
    exists ps,
      Forall2 (fun occ p => In p occ) remaining ps
      /\ List.NoDup ps
      /\ (forall p, In p ps -> p ∉ used)
      /\ length (cur ++ ps) = length variant
      /\ acceptable found (cur ++ ps) = true
      /\ m = flexMatchOf wordMap variant (cur ++ ps).
Proof.
  induction remaining as [|positions rest IH]; intros cur used m.
  - simpl. split.
    + destruct (_ && _) eqn:E; [| intros []].
      intros [<- | []]. apply andb_true_iff in E as [El Ea].
      apply Nat.eqb_eq in El. exists []. rewrite app_nil_r.
      repeat split; [constructor | constructor | intros ? [] | exact El | exact Ea].
    + intros (ps & HF & _ & _ & Hl & Ha & ->). inversion HF; subst.
      rewrite app_nil_r in *. apply Nat.eqb_eq in Hl. rewrite Hl, Ha.
      simpl. now left.
  - simpl. rewrite in_flat_map. split.
    + intros (position & Hpos & Hm).
      destruct (bool_decide (position ∈ used)) eqn:Hu; [destruct Hm |].
      apply bool_decide_eq_false_1 in Hu.
      apply IH in Hm as (ps & HF & Hnd & Hfree & Hl & Ha & ->).
      exists (position :: ps). rewrite <- app_assoc in *. simpl in *.
      repeat split; try assumption.
      * constructor; assumption.
      * constructor; [| exact Hnd]. intros Hin.
        apply (Hfree position Hin). apply elem_of_union_l, elem_of_singleton.
        reflexivity.
      * intros p [<- | Hp]; [exact Hu |]. intros Hin.
        apply (Hfree p Hp). now apply elem_of_union_r.
    + intros (ps & HF & Hnd & Hfree & Hl & Ha & ->).
      inversion HF as [| occ position rest' ps' Hpos HF']; subst.
      exists position. split; [exact Hpos |].
      rewrite bool_decide_eq_false_2 by (apply Hfree; now left).
      apply IH. exists ps'. rewrite <- app_assoc. simpl.
      inversion Hnd; subst.
      repeat split; try assumption.
      intros p Hp Hin. apply elem_of_union in Hin as [Hin | Hin].
      * apply elem_of_singleton in Hin. subst. contradiction.
      * apply (Hfree p); [now right | exact Hin].
Qed.

Lemma flexibleOfVariant_spec (variant : Variant) (wordMap : list WordInfo)
    (found : gset nat) (m : FlexMatch) :
  In m (flexibleOfVariant variant wordMap found) <->
  3 <= length variant
  /\ exists positions,
       CompleteAssignment wordMap variant positions
       /\ spanOf positions <= 20
       /\ (forall p, In p positions -> p ∉ found)
       /\ m = flexMatchOf wordMap variant positions.
Proof.
  unfold flexibleOfVariant, CompleteAssignment.
  destruct (length variant <? 3) eqn:E3.
  - apply Nat.ltb_lt in E3. simpl. split; [tauto | intros [? _]; lia].
  - apply Nat.ltb_ge in E3.
    assert (HF : forall ps,
               Forall2 (fun occ p => In p occ) (List.map (occurrences wordMap) variant) ps
               <-> Forall2 (wordIs wordMap) variant ps).
    { intros ps. rewrite Forall2_fmap_l. split; intros H;
        (eapply Forall2_impl; [exact H |]); intros tok p Hp;
        now apply occurrences_spec. }
    destruct (existsb _ _) eqn:Ee.
    + simpl. split; [tauto |].
      intros (_ & ps & [Hall _] & _). apply HF in Hall.
      apply existsb_exists in Ee as (occ & Hocc & Hlen).
      apply Nat.eqb_eq in Hlen. destruct occ; [| discriminate].
      exfalso. clear -Hall Hocc.
      induction Hall as [|occ p l ps Hp Hall IH]; [destruct Hocc |].
      destruct Hocc as [-> | Hocc]; [destruct Hp | exact (IH Hocc)].
    + rewrite findCombinations_spec. simpl. split.
      * intros (ps & Hall & Hnd & _ & _ & Ha & ->). split; [exact E3 |].
        apply acceptable_spec in Ha as [Hs Hc]. exists ps.
        apply HF in Hall. repeat split; assumption.
      * intros (_ & ps & [Hall Hnd] & Hs & Hc & ->). exists ps.
        repeat split; try assumption.
        -- now apply HF.
        -- intros p _. apply not_elem_of_empty.
        -- apply Forall2_length in Hall. symmetry. exact Hall.
        -- apply acceptable_spec. split; assumption.
Qed.

Lemma fold_min_nat (l : list nat) (a : nat) :
  In (fold_left Nat.min l a) (a :: l)
  /\ forall p, In p (a :: l) -> fold_left Nat.min l a <= p.
Proof.
  revert a. induction l as [|c l IH]; intros a; simpl.
  - split; [now left | intros p [<- | []]; lia].
  - destruct (IH (Nat.min a c)) as [Hin Hle]. split.
    + destruct Hin as [Hin | Hin]; [| right; now right].
      destruct (Nat.min_spec a c) as [[_ E] | [_ E]];
        [left | right; left]; congruence.
    + intros p Hp.
      assert (Ha : fold_left Nat.min l (Nat.min a c) <= Nat.min a c)
        by (apply Hle; now left).
      destruct Hp as [<- | [<- | Hp]]; [lia | lia |].
      apply Hle. now right.
Qed.

Lemma fold_max_nat (l : list nat) (a : nat) :
  In (fold_left Nat.max l a) (a :: l)
  /\ forall p, In p (a :: l) -> p <= fold_left Nat.max l a.
Proof.
  revert a. induction l as [|c l IH]; intros a; simpl.
  - split; [now left | intros p [<- | []]; lia].
  - destruct (IH (Nat.max a c)) as [Hin Hle]. split.
    + destruct Hin as [Hin | Hin]; [| right; now right].
      destruct (Nat.max_spec a c) as [[_ E] | [_ E]];
        [right; left | left]; congruence.
    + intros p Hp.
      assert (Ha : Nat.max a c <= fold_left Nat.max l (Nat.max a c))
        by (apply Hle; now left).
      destruct Hp as [<- | [<- | Hp]]; [lia | lia |].
      apply Hle. now right.
Qed.

Lemma spanOf_SpanIs (positions : list nat) :
  positions <> [] -> SpanIs positions (spanOf positions).
Proof.
  destruct positions as [|a l]; [congruence | intros _].
  exists (minPosOf (a :: l)), (maxPosOf (a :: l)).
  destruct (fold_min_nat l a) as [Hmi Hml].
  destruct (fold_max_nat l a) as [Hxi Hxl].
  unfold minPosOf, maxPosOf. repeat split; auto.
Qed.

Lemma flexConfidence_max (span : nat) : MaxConfidence span (flexConfidence span).
Proof.
  unfold MaxConfidence, flexConfidence.
  destruct (Qle_bool _ _) eqn:E.
  - apply Qle_bool_iff in E. repeat split; [apply Qle_refl | exact E | now left].
  - assert (H : ~ (1 - inject_Z (Z.of_nat span) / 100 <= 7 # 10)%Q).
    { intros H. apply Qle_bool_iff in H. congruence. }
    apply Qnot_le_lt in H. repeat split;
      [apply Qlt_le_weak, H | apply Qle_refl | now right].
Qed.

Section SortingFacts.
Context {A : Type} (conf : A -> Q).

Lemma insertDesc_perm (x : A) (l : list A) :
  Permutation (insertDesc conf x l) (x :: l).
Proof.
  induction l as [|y l IH]; simpl; [reflexivity |].
  destruct (Qle_bool _ _); [reflexivity |].
  rewrite IH. apply perm_swap.
Qed.

Lemma sortDesc_perm (l : list A) : Permutation (sortDesc conf l) l.
Proof.
  induction l as [|x l IH]; simpl; [reflexivity |].
  rewrite insertDesc_perm. now constructor.
Qed.

Lemma insertDesc_sorted (x : A) (l : list A) :
  Sorted (Desc conf) l -> Sorted (Desc conf) (insertDesc conf x l).
Proof.
  induction l as [|y l IH]; intros HS; simpl.
  - repeat constructor.
  - destruct (Qle_bool (conf y) (conf x)) eqn:E.
    + apply Qle_bool_iff in E. constructor; [exact HS |]. now constructor.
    + assert (Hxy : Desc conf y x).
      { unfold Desc. apply Qlt_le_weak, Qnot_le_lt. intros H.
        apply Qle_bool_iff in H. congruence. }
      inversion HS as [|? ? HS' Hhd]; subst.
      constructor; [now apply IH |].
      destruct l as [|z l]; simpl; [now constructor |].
      destruct (Qle_bool (conf z) (conf x)); constructor; [exact Hxy |].
      now inversion Hhd.
Qed.

Lemma sortDesc_sorted (l : list A) : StronglySorted (Desc conf) (sortDesc conf l).
Proof.
  apply Sorted_StronglySorted.
  - intros a b c Hab Hbc. unfold Desc in *. eapply Qle_trans; eassumption.
  - induction l as [|x l IH]; simpl; [constructor |].
    now apply insertDesc_sorted.
Qed.

Lemma StronglySorted_app_parts (l1 l2 : list A) :
  StronglySorted (Desc conf) (l1 ++ l2) ->
  StronglySorted (Desc conf) l1
  /\ forall a b, In a l1 -> In b l2 -> Desc conf a b.
Proof.
  induction l1 as [|x l1 IH]; simpl; intros HS.
  - split; [constructor | intros ? ? []].
  - inversion HS as [|? ? HS' Hall]; subst.
    destruct (IH HS') as [H1 H2].
    apply List.Forall_app in Hall as [Hall1 Hall2]. split.
    + now constructor.
    + intros a b [<- | Ha] Hb; [| now apply H2].
      rewrite List.Forall_forall in Hall2. now apply Hall2.
Qed.
End SortingFacts.

(** C5. The flexible matcher. A combination is pushed exactly when it
    assigns to every token of a searched variant a position holding that
    token, uses no position twice, has span at most 20 and touches no claimed
    position; its span is [max - min + 1] of its positions and its confidence
    [max(0.7, 1 - span / 100)]. The matcher returns the first three of the
    combinations sorted by descending confidence: at most three, in
    descending order, none below a combination left out. *)
Theorem flexible_accept_and_top3 (searchVariants : list Variant)
    (wordMap : list WordInfo) (foundPositions : gset nat) :
  let pushed := flexibleCandidates searchVariants wordMap foundPositions in
  let kept := findFlexibleMatches searchVariants wordMap foundPositions in
  (forall m,
      In m pushed <->
      exists variant positions,
        In variant searchVariants
        /\ 3 <= length variant
        /\ CompleteAssignment wordMap variant positions
        /\ spanOf positions <= 20
        /\ (forall p, In p positions -> p ∉ foundPositions)
        /\ m = {| f_words := wordsAt wordMap positions;
                  f_confidence := flexConfidence (spanOf positions);
                  f_matchedWords := variant;
                  f_positions := positions |})
  /\ (forall m, In m pushed ->
        SpanIs (f_positions m) (spanOf (f_positions m))
        /\ MaxConfidence (spanOf (f_positions m)) (f_confidence m))
  /\ length kept <= 3
  /\ StronglySorted (Desc f_confidence) kept
  /\ exists rest,
       Permutation pushed (kept ++ rest)
       /\ (length kept < 3 -> rest = [])
       /\ forall k r, In k kept -> In r rest ->
                      (f_confidence r <= f_confidence k)%Q.
Proof.
  intros pushed kept.
  assert (Hpushed : forall m,
             In m pushed <->
             exists variant positions,
               In variant searchVariants
               /\ 3 <= length variant
               /\ CompleteAssignment wordMap variant positions
               /\ spanOf positions <= 20
               /\ (forall p, In p positions -> p ∉ foundPositions)
               /\ m = flexMatchOf wordMap variant positions).
  { intros m. unfold pushed, flexibleCandidates. rewrite in_flat_map. split.
    - intros (variant & Hv & Hm). apply flexibleOfVariant_spec in Hm
        as (H3 & positions & Hm). exists variant, positions. tauto.
    - intros (variant & positions & Hv & H3 & Hm). exists variant.
      split; [exact Hv |]. apply flexibleOfVariant_spec. split; [exact H3 |].
      exists positions. exact Hm. }
  split; [exact Hpushed | split].
  - intros m Hm. apply Hpushed in Hm
      as (variant & positions & _ & H3 & [Hall _] & _ & _ & ->).
    simpl. split; [| apply flexConfidence_max].
    apply spanOf_SpanIs. apply Forall2_length in Hall.
    destruct positions; [simpl in Hall; lia | discriminate].
  - set (sorted := sortDesc f_confidence pushed).
    assert (Hsplit : sorted = kept ++ skipn 3 sorted)
      by (symmetry; apply firstn_skipn).
    pose proof (sortDesc_sorted f_confidence pushed) as HS. fold sorted in HS.
    rewrite Hsplit in HS. apply StronglySorted_app_parts in HS as [HS1 HS2].
    split; [apply firstn_le_length | split; [exact HS1 |]].
    exists (skipn 3 sorted). split; [| split].
    + rewrite <- Hsplit. symmetry. apply sortDesc_perm.
    + intros Hlt. apply skipn_all2. unfold kept, findFlexibleMatches in Hlt.
      fold pushed in Hlt. fold sorted in Hlt. rewrite length_firstn in Hlt. lia.
    + intros k r Hk Hr. exact (HS2 k r Hk Hr).
Qed.

Lemma flexible_accept_and_top3_witness :
  In {| f_words := wordsAt (spreadWords 17) [0; 1; 19];
        f_confidence := flexConfidence 20;
        f_matchedWords := ["A"; "B"; "C"];
        f_positions := [0; 1; 19] |}
     (flexibleCandidates [["A"; "B"; "C"]] (spreadWords 17) ∅)
  /\ MaxConfidence 20 (flexConfidence 20).
Proof.
  destruct (flexible_accept_and_top3 [["A"; "B"; "C"]] (spreadWords 17) ∅)
    as (Hiff & Hconf & _).
  assert (Hin : In {| f_words := wordsAt (spreadWords 17) [0; 1; 19];
                      f_confidence := flexConfidence (spanOf [0; 1; 19]);
                      f_matchedWords := ["A"; "B"; "C"];
                      f_positions := [0; 1; 19] |}
                   (flexibleCandidates [["A"; "B"; "C"]] (spreadWords 17) ∅)).
  { apply Hiff. exists ["A"; "B"; "C"], [0; 1; 19].
    split; [now left | split; [simpl; lia | split; [| split; [| split]]]].
    - split.
      + repeat constructor; eexists; split; reflexivity.
      + repeat constructor; simpl; intuition discriminate.
    - vm_compute. lia.
    - intros p _. apply not_elem_of_empty.
    - reflexivity. }
  split; [exact Hin |]. exact (proj2 (Hconf _ Hin)).
Defined.

(** A combination of span 21 is not pushed. *)
Example flexible_span_21_rejected :
  flexibleCandidates [["A"; "B"; "C"]] (spreadWords 18) ∅ = [].
Proof. vm_compute. reflexivity. Qed.

(** ** When the flexible step runs, and on which variants *)

Lemma fold_count_zero {X} (f : State -> X -> State) (l : list X) :
  (forall st x, instanceCount st <= instanceCount (f st x)) ->
  (forall st x, instanceCount (f st x) = 0 -> f st x = st) ->
  forall st,
    (instanceCount st <= instanceCount (fold_left f l st))
    /\ (instanceCount (fold_left f l st) = 0 ->
        fold_left f l st = st /\ forall x, In x l -> f st x = st).
Proof.
  intros Hmono Hzero. induction l as [|x l IH]; intros st; simpl.
  - split; [lia |]. intros _. split; [reflexivity | intros ? []].
  - destruct (IH (f st x)) as [Hle Hz]. split.
    + specialize (Hmono st x). lia.
    + intros H0. destruct (Hz H0) as [Hfold Hall].
      assert (Hx : f st x = st).
      { apply Hzero. specialize (Hmono st x). lia. }
      rewrite Hx in *. split; [exact Hfold |].
      intros y [<- | Hy]; [exact Hx | now apply Hall].
Qed.

Lemma fold_fixed {X} (f : State -> X -> State) (l : list X) (st : State) :
  (forall x, In x l -> f st x = st) -> fold_left f l st = st.
Proof.
  induction l as [|x l IH]; intros H; simpl; [reflexivity |].
  rewrite (H x) by now left. apply IH. intros y Hy. apply H. now right.
Qed.

Section ExactCount.
Variables (pii : Pii) (wordMap : list WordInfo).

Lemma exactAt_mono (variant : Variant) (st : State) (i : nat) :
  instanceCount st <= instanceCount (exactAt pii wordMap variant st i).
Proof.
  unfold exactAt. destruct (bool_decide _); [lia |].
  destruct (variant_eqb _ _); simpl; lia.
Qed.

Lemma exactAt_zero (variant : Variant) (st : State) (i : nat) :
  instanceCount (exactAt pii wordMap variant st i) = 0 ->
  exactAt pii wordMap variant st i = st.
Proof.
  unfold exactAt. destruct (bool_decide _); [reflexivity |].
  destruct (variant_eqb _ _); simpl; [discriminate | reflexivity].
Qed.

Lemma exactAt_fixed_iff (variant : Variant) (st : State) (i : nat) :
  foundPositions st = ∅ ->
  exactAt pii wordMap variant st i = st <->
  List.map text (sliceWords wordMap i (i + length variant)) <> variant.
Proof.
  intros Hempty. unfold exactAt.
  rewrite bool_decide_eq_false_2
    by (rewrite Hempty; apply not_elem_of_empty).
  unfold variant_eqb.
  destruct (decide (List.map text (sliceWords wordMap i (i + length variant))
                    = variant)) as [Heq | Hne].
  - rewrite bool_decide_eq_true_2 by exact Heq.
    split; [| congruence]. intros H.
    apply (f_equal instanceCount) in H. simpl in H. lia.
  - rewrite bool_decide_eq_false_2 by exact Hne.
    split; [intros _; exact Hne | reflexivity].
Qed.

Lemma exactVariant_mono (st : State) (variant : Variant) :
  instanceCount st <= instanceCount (exactVariant pii wordMap st variant).
Proof.
  unfold exactVariant.
  apply (fold_count_zero (exactAt pii wordMap variant));
    [apply exactAt_mono | apply exactAt_zero].
Qed.

Lemma exactVariant_zero (st : State) (variant : Variant) :
  instanceCount (exactVariant pii wordMap st variant) = 0 ->
  exactVariant pii wordMap st variant = st.
Proof.
  unfold exactVariant. intros H.
  apply (fold_count_zero (exactAt pii wordMap variant)) in H;
    [tauto | apply exactAt_mono | apply exactAt_zero].
Qed.

Lemma exactStep_zero_iff (searchVariants : list Variant) (st : State) :
  instanceCount st = 0 -> foundPositions st = ∅ ->
  instanceCount (exactStep pii wordMap searchVariants st) = 0 <->
  NoExactOccurrence searchVariants wordMap.
Proof.
  intros Hc Hf. unfold exactStep, NoExactOccurrence. split.
  - intros H variant i Hv Hi.
    apply (fold_count_zero (exactVariant pii wordMap)) in H as [_ Hall];
      [| apply exactVariant_mono | apply exactVariant_zero].
    specialize (Hall variant Hv).
    assert (H0 : instanceCount (exactVariant pii wordMap st variant) = 0)
      by (rewrite Hall; exact Hc).
    unfold exactVariant in H0.
    apply (fold_count_zero (exactAt pii wordMap variant)) in H0 as [_ Hall'];
      [| apply exactAt_mono | apply exactAt_zero].
    apply (exactAt_fixed_iff variant st i Hf), Hall', in_seq. lia.
  - intros H. rewrite fold_fixed; [exact Hc |].
    intros variant Hv. unfold exactVariant. apply fold_fixed.
    intros i Hi. apply in_seq in Hi.
    apply (exactAt_fixed_iff variant st i Hf), H; [exact Hv | lia].
Qed.
End ExactCount.

Lemma in_firstn_in {A} (n : nat) (l : list A) (x : A) :
  In x (firstn n l) -> In x l.
Proof.
  intros H. rewrite <- (firstn_skipn n l). apply in_or_app. now left.
Qed.

(** C4, as the code has it. The flexible step runs if and only if some
    variant has at least 4 tokens and the exact step found no occurrence of
    any variant; when it runs it searches every variant of at least 3 tokens:
    the combinations pushed are those of the variants of length at least 3,
    and every combination returned belongs to such a variant. *)
Theorem flexible_runs_and_searches (pii : Pii) (wordMap : list WordInfo)
    (searchVariants : list Variant) (st : State)
    (foundPositions' : gset nat) :
  instanceCount st = 0 -> foundPositions st = ∅ ->
  (flexibleRuns searchVariants (exactStep pii wordMap searchVariants st) = true
   <-> (exists variant, In variant searchVariants /\ 4 <= length variant)
       /\ NoExactOccurrence searchVariants wordMap)
  /\ flexibleCandidates searchVariants wordMap foundPositions'
     = flexibleCandidates
         (List.filter (fun variant => 3 <=? length variant) searchVariants)
         wordMap foundPositions'
  /\ (forall m,
        In m (findFlexibleMatches searchVariants wordMap foundPositions') ->
        In (f_matchedWords m) searchVariants
        /\ 3 <= length (f_matchedWords m)).
Proof.
  intros Hc Hf. split; [| split].
  - unfold flexibleRuns. rewrite andb_true_iff, Nat.eqb_eq.
    rewrite (exactStep_zero_iff pii wordMap searchVariants st Hc Hf).
    rewrite existsb_exists.
    split; intros [(variant & Hv & Hl) Hno]; (split; [| exact Hno]);
      exists variant; (split; [exact Hv |]).
    + now apply Nat.leb_le.
    + now apply Nat.leb_le.
  - unfold flexibleCandidates.
    induction searchVariants as [|variant l IH]; [reflexivity |].
    cbn [List.filter flat_map]. destruct (3 <=? length variant) eqn:E.
    + cbn [flat_map]. now rewrite IH.
    + rewrite <- IH. apply Nat.leb_gt in E. unfold flexibleOfVariant at 1.
      rewrite (proj2 (Nat.ltb_lt _ _) E). reflexivity.
  - intros m Hm. unfold findFlexibleMatches in Hm.
    apply in_firstn_in in Hm.
    apply (Permutation_in _ (sortDesc_perm f_confidence _)) in Hm.
    unfold flexibleCandidates in Hm. apply in_flat_map in Hm as (variant & Hv & Hm).
    apply flexibleOfVariant_spec in Hm as (H3 & positions & _ & _ & _ & ->).
    simpl. split; assumption.
Qed.

Lemma flexible_runs_and_searches_witness :
  let wordMap := normalizeWords
                   [boxWord "A" 0 0; boxWord "x" 10 0; boxWord "B" 20 0;
                    boxWord "CD" 30 0] in
  let searchVariants := createSearchVariants "A B C-D" in
  (exists variant, In variant searchVariants /\ 4 <= length variant)
  /\ NoExactOccurrence searchVariants wordMap.
Proof.
  intros wordMap searchVariants.
  apply (proj1 (flexible_runs_and_searches (phrase "A B C-D") wordMap
                  searchVariants initialState ∅ eq_refl eq_refl)).
  vm_compute. reflexivity.
Defined.

(** C4 as stated fails: for the phrase "A B C-D" the flexible step runs (the
    separator-expansion variant has 4 tokens and nothing matches exactly) and
    returns a combination of the base variant, which has 3 tokens. *)
Lemma flexible_searches_three_token_variant :
  let wordMap := normalizeWords
                   [boxWord "A" 0 0; boxWord "x" 10 0; boxWord "B" 20 0;
                    boxWord "CD" 30 0] in
  let searchVariants := createSearchVariants "A B C-D" in
  flexibleRuns searchVariants
    (exactStep (phrase "A B C-D") wordMap searchVariants initialState) = true
  /\ ~ (forall m,
          In m (findFlexibleMatches searchVariants wordMap ∅) ->
          4 <= length (f_matchedWords m)).
Proof.
  intros wordMap searchVariants. split; [vm_compute; reflexivity |].
  intros H.
  specialize (H (flexMatchOf wordMap ["A"; "B"; "CD"] [0; 2; 3])).
  simpl in H. assert (4 <= 3); [| lia]. apply H.
  vm_compute. left. reflexivity.
Qed.

(** ** The variants of a short single token *)

Lemma findIndex_head (v : Variant) (l : list Variant) :
  findIndex (variant_eqb v) (v :: l) = Some 0.
Proof.
  simpl. unfold variant_eqb. now rewrite bool_decide_eq_true_2.
Qed.

Lemma uniqueVariants_head (v : Variant) (l : list Variant) :
  exists l', uniqueVariants (v :: l) = v :: l'.
Proof.
  unfold uniqueVariants.
  change (combine (seq 0 (length (v :: l))) (v :: l))
    with ((0, v) :: combine (seq 1 (length l)) l).
  cbn [List.filter fst snd]. rewrite findIndex_head.
  rewrite bool_decide_eq_true_2 by reflexivity.
  cbn [List.map snd]. eauto.
Qed.

Lemma uniqueVariants_incl (l : list Variant) (v : Variant) :
  In v (uniqueVariants l) -> In v l.
Proof.
  unfold uniqueVariants. rewrite in_map_iff.
  intros ([i v'] & <- & Hin). apply filter_In in Hin as [Hin _].
  simpl. eapply in_combine_r, Hin.
Qed.

Lemma uniqueVariants_length (l : list Variant) :
  length (uniqueVariants l) <= length l.
Proof.
  unfold uniqueVariants. rewrite length_map.
  etransitivity; [apply filter_length_le |].
  rewrite length_combine, length_seq. lia.
Qed.

Lemma uniqueVariants_single (v : Variant) : uniqueVariants [v] = [v].
Proof.
  destruct (uniqueVariants_head v []) as [l' H].
  pose proof (uniqueVariants_length [v]) as Hl. rewrite H in *.
  destruct l'; [reflexivity | simpl in Hl; lia].
Qed.

(** C2, as the code has it. For a phrase whose base is one token of fewer
    than 4 characters no split of variant 5 is generated. The result is the
    deduplicated list of the base, the letter/digit-spaced variant 3 (when it
    has more than one token) and the separator expansion of variant 4 (when
    it differs from the base): the base comes first, at most two more
    variants follow, and the result is the base alone when neither variant 3
    nor variant 4 applies. *)
Theorem short_token_variants (piiText word : string) :
  normalizedWordsOf piiText = [word] ->
  String.length word < 4 ->
  splitVariants [word] = []
  /\ createSearchVariants piiText
     = uniqueVariants ([[word]] ++ spacedVariants [word]
                       ++ hyphenVariants piiText [word])
  /\ (exists more, createSearchVariants piiText = [word] :: more
                   /\ length more <= 2)
  /\ (forall v, In v (createSearchVariants piiText) ->
                v = [word]
                \/ (v = spacedVariantOf word /\ 1 < length v)
                \/ (v = expandHyphensOf piiText /\ v <> [word]))
  /\ (length (spacedVariantOf word) <= 1 ->
      expandHyphensOf piiText = [word] ->
      createSearchVariants piiText = [[word]]).
Proof.
  intros Hbase Hlen.
  assert (Hsplit : splitVariants [word] = []).
  { unfold splitVariants. now rewrite (proj2 (Nat.leb_gt _ _) Hlen). }
  assert (Hcsv : createSearchVariants piiText
                 = uniqueVariants ([[word]] ++ spacedVariants [word]
                                   ++ hyphenVariants piiText [word])).
  { unfold createSearchVariants. rewrite Hbase, Hsplit.
    unfold mergedVariants. cbn [length Nat.ltb Nat.leb app].
    now rewrite app_nil_r. }
  assert (Hsp : spacedVariants [word] = []
                \/ (spacedVariants [word] = [spacedVariantOf word]
                    /\ 1 < length (spacedVariantOf word))).
  { unfold spacedVariants. destruct (1 <? _) eqn:E; [right | now left].
    apply Nat.ltb_lt in E. now split. }
  assert (Hhy : hyphenVariants piiText [word] = []
                \/ (hyphenVariants piiText [word] = [expandHyphensOf piiText]
                    /\ expandHyphensOf piiText <> [word])).
  { unfold hyphenVariants. destruct (_ || _) eqn:E; [right | now left].
    split; [reflexivity |]. intros Heq. rewrite Heq in E.
    unfold variant_eqb in E. rewrite bool_decide_eq_true_2 in E by reflexivity.
    simpl in E. discriminate. }
  split; [exact Hsplit | split; [exact Hcsv | split; [| split]]].
  - destruct (uniqueVariants_head [word]
                (spacedVariants [word] ++ hyphenVariants piiText [word]))
      as [more Hmore].
    exists more. rewrite Hcsv. split; [exact Hmore |].
    pose proof (uniqueVariants_length
                  (@cons Variant [word]
                     (spacedVariants [word] ++ hyphenVariants piiText [word])))
      as Hl.
    rewrite Hmore in Hl.
    destruct Hsp as [E1 | [E1 _]], Hhy as [E2 | [E2 _]];
      rewrite E1, E2 in Hl; simpl in Hl; unfold Variant in *; lia.
  - intros v Hv. rewrite Hcsv in Hv. apply uniqueVariants_incl in Hv.
    apply in_app_or in Hv as [[<- | []] | Hv]; [now left |].
    apply in_app_or in Hv as [Hv | Hv].
    + destruct Hsp as [E | [E Hl]]; rewrite E in Hv; [destruct Hv |].
      destruct Hv as [<- | []]. right; left. now split.
    + destruct Hhy as [E | [E Hne]]; rewrite E in Hv; [destruct Hv |].
      destruct Hv as [<- | []]. right; right. now split.
  - intros Hsl Hex. rewrite Hcsv.
    destruct Hsp as [-> | [_ Hl]]; [| lia].
    destruct Hhy as [-> | [_ Hne]]; [| congruence].
    apply uniqueVariants_single.
Qed.

Lemma short_token_variants_witness :
  splitVariants ["A1"] = []
  /\ exists more, createSearchVariants "A1" = ["A1"] :: more /\ length more <= 2.
Proof.
  destruct (short_token_variants "A1" "A1") as (H1 & _ & H3 & _).
  - reflexivity.
  - simpl. lia.
  - split; [exact H1 | exact H3].
Defined.

(** C2 as stated fails: the base of "A1" is the single token "A1" of length
    2, and the generator returns a second variant, the token split at its
    letter/digit boundary. *)
Lemma short_token_gets_boundary_split :
  normalizedWordsOf "A1" = ["A1"]
  /\ String.length "A1" < 4
  /\ createSearchVariants "A1" = [["A1"]; ["A"; "1"]]
  /\ createSearchVariants "A1" <> [normalizedWordsOf "A1"].
Proof.
  split; [reflexivity | split; [simpl; lia | split; [reflexivity |]]].
  vm_compute. discriminate.
Qed.

(** ** Suppression of overlapping fuzzy candidates *)

Lemma combine_seq_snoc {A} (l : list A) (c : A) (k : nat) :
  combine (seq k (length (l ++ [c]))) (l ++ [c])
  = combine (seq k (length l)) l ++ [(k + length l, c)].
Proof.
  revert k. induction l as [|a l IH]; intros k; simpl.
  - now rewrite Nat.add_0_r.
  - rewrite IH. replace (S k + length l) with (k + S (length l)) by lia.
    reflexivity.
Qed.

Lemma indexed_snoc {A} (l : list A) (c : A) :
  indexed (l ++ [c]) = indexed l ++ [(length l, c)].
Proof. unfold indexed. now rewrite combine_seq_snoc. Qed.

Lemma indexed_bound {A} (l : list A) (i : nat) (x : A) :
  In (i, x) (indexed l) -> i < length l.
Proof.
  intros H. apply in_indexed in H. now apply lookup_lt_Some in H.
Qed.

Lemma overlaps_false_iff (prev m : FuzzyMatchInfo) :
  overlaps prev m = false <-> Far prev m.
Proof.
  unfold overlaps, Far. rewrite Nat.ltb_ge. simpl.
  destruct (Nat.max_spec (z_matchedWords prev) (z_matchedWords m))
    as [[_ ->] | [_ ->]]; split; intros H; lia.
Qed.

Lemma removeOverlapping_snoc (arr : list FuzzyMatchInfo) (c : FuzzyMatchInfo) :
  removeOverlapping (arr ++ [c])
  = removeOverlapping arr
    ++ (if existsb (fun prev => overlaps prev c) arr then [] else [c]).
Proof.
  unfold removeOverlapping. rewrite indexed_snoc, List.filter_app, List.map_app.
  f_equal.
  - f_equal. apply List.filter_ext_in. intros [i x] Hin. simpl.
    apply indexed_bound in Hin.
    rewrite firstn_app. replace (i - length arr) with 0 by lia.
    simpl. now rewrite app_nil_r.
  - simpl. rewrite firstn_app, Nat.sub_diag, firstn_all. simpl.
    rewrite app_nil_r. now destruct (existsb _ arr).
Qed.

(** C3, as the code has it. The candidates are sorted by descending
    similarity, and a candidate passes the suppression filter if and only if
    its start is at least [max] of the two window lengths away from the start
    of every candidate sorted before it, whether that candidate passed the
    filter itself or not. The pipeline then skips a candidate whose start is
    claimed, and hands every other one to [createPiiMatch]. *)
Theorem fuzzy_suppression_by_every_earlier (pii : Pii) (wordMap : list WordInfo)
    (st : State) (arr : list FuzzyMatchInfo) (c : FuzzyMatchInfo) :
  (forall piiText words threshold,
      fuzzyMatchPII piiText words threshold
      = removeOverlapping
          (sortDesc z_confidence (fuzzyCandidates piiText words threshold))
      /\ StronglySorted (Desc z_confidence)
           (sortDesc z_confidence (fuzzyCandidates piiText words threshold))
      /\ Permutation
           (sortDesc z_confidence (fuzzyCandidates piiText words threshold))
           (fuzzyCandidates piiText words threshold))
  /\ ((forall prev, In prev arr -> Far prev c) ->
      removeOverlapping (arr ++ [c]) = removeOverlapping arr ++ [c])
  /\ ((exists prev, In prev arr /\ ~ Far prev c) ->
      removeOverlapping (arr ++ [c]) = removeOverlapping arr)
  /\ (z_position c ∈ foundPositions st -> fuzzyAt pii wordMap st c = st)
  /\ (z_position c ∉ foundPositions st ->
      piiIdCounter (fuzzyAt pii wordMap st c) = S (piiIdCounter st)
      /\ piiData (fuzzyAt pii wordMap st c)
         = pushMatch (windowAt (z_position c) (z_matchedWords c))
             (createPiiMatch
                (sliceWords wordMap (z_position c)
                   (z_position c + z_matchedWords c))
                (piiIdCounter st) pii (z_confidence c)
                (FuzzyMatch (z_confidence c)))
             (piiData st)).
Proof.
  split; [| split; [| split; [| split]]].
  - intros piiText words threshold. split; [reflexivity | split].
    + apply sortDesc_sorted.
    + apply sortDesc_perm.
  - intros Hfar. rewrite removeOverlapping_snoc.
    replace (existsb (fun prev => overlaps prev c) arr) with false; [reflexivity |].
    symmetry. apply not_true_is_false. intros H.
    apply existsb_exists in H as (prev & Hin & Ho).
    apply Hfar, overlaps_false_iff in Hin. congruence.
  - intros (prev & Hin & Hnear). rewrite removeOverlapping_snoc.
    replace (existsb (fun prev => overlaps prev c) arr) with true;
      [apply app_nil_r |].
    symmetry. apply existsb_exists. exists prev. split; [exact Hin |].
    apply not_false_is_true. intros H. now apply overlaps_false_iff in H.
  - intros Hin. unfold fuzzyAt. now rewrite bool_decide_eq_true_2.
  - intros Hout. unfold fuzzyAt. rewrite bool_decide_eq_false_2 by exact Hout.
    destruct (createPiiMatch _ _ _ _ _); simpl; split; reflexivity.
Qed.

Lemma fuzzy_suppression_by_every_earlier_witness :
  sortDesc z_confidence (fuzzyCandidates "abcdefghij" chainWords (85 # 100))
  = [chainBest; chainMiddle] ++ [chainLast]
  /\ removeOverlapping ([chainBest; chainMiddle] ++ [chainLast])
     = removeOverlapping [chainBest; chainMiddle]
  /\ fuzzyAt (phrase "abcdefghij") chainWords
       {| instanceCount := 1; foundPositions := {[2]};
          piiIdCounter := 1; piiData := [] |} chainBest
     = {| instanceCount := 1; foundPositions := {[2]};
          piiIdCounter := 1; piiData := [] |}.
Proof.
  destruct (fuzzy_suppression_by_every_earlier (phrase "abcdefghij") chainWords
              {| instanceCount := 1; foundPositions := {[2]};
                 piiIdCounter := 1; piiData := [] |}
              [chainBest; chainMiddle] chainLast)
    as (_ & _ & Hnear & _).
  destruct (fuzzy_suppression_by_every_earlier (phrase "abcdefghij") chainWords
              {| instanceCount := 1; foundPositions := {[2]};
                 piiIdCounter := 1; piiData := [] |}
              [] chainBest)
    as (_ & _ & _ & Hskip & _).
  split; [vm_compute; reflexivity | split].
  - apply Hnear. exists chainMiddle. split; [right; now left |].
    unfold Far. simpl. lia.
  - apply Hskip. simpl. apply elem_of_singleton. reflexivity.
Defined.

(** C3 as stated fails: the last candidate of the example is far enough from
    the only accepted candidate and its start is not claimed, but it is not
    accepted, because the suppressed middle candidate is too close to it. No
    record covering word 0 is produced. *)
Lemma suppressed_candidate_still_suppresses :
  let pii := phrase "abcdefghij" in
  let wordMap := normalizeWords chainWords in
  let searchVariants := createSearchVariants (pii_text pii) in
  let st2 := flexibleStep pii wordMap searchVariants
               (exactStep pii wordMap searchVariants initialState) in
  let sorted :=
    sortDesc z_confidence (fuzzyCandidates (pii_text pii) wordMap (85 # 100)) in
  let accepted := fuzzyMatchPII (pii_text pii) wordMap (85 # 100) in
  In chainLast sorted
  /\ accepted = [chainBest]
  /\ (forall a, In a accepted -> Far a chainLast)
  /\ (z_position chainLast ∉ foundPositions st2)
  /\ ~ In chainLast accepted
  /\ List.map e_positions (mapPiiToBboxTrace [pii] chainWords) = [[2]].
Proof.
  intros pii wordMap searchVariants st2 sorted accepted.
  assert (Hacc : accepted = [chainBest]) by (vm_compute; reflexivity).
  split; [vm_compute; right; right; left; reflexivity |].
  split; [exact Hacc |]. rewrite Hacc.
  split; [intros a [<- | []]; unfold Far; simpl; lia |].
  split; [| split].
  - assert (Hf : foundPositions st2 = {[2]}) by (vm_compute; reflexivity).
    rewrite Hf. intros H. apply elem_of_singleton in H. discriminate H.
  - intros [H | []]. discriminate H.
  - vm_compute. reflexivity.
Qed.

(** ** Overlap of the records of one phrase *)

Lemma addAll_subseteq (positions : list nat) (found : gset nat) :
  found ⊆ addAll positions found.
Proof. intros p Hp. apply elem_of_addAll. now right. Qed.

Lemma sliceWords_nonempty {A} (l : list A) (i len : nat) :
  sliceWords l i (i + len) <> [] -> 0 < len.
Proof.
  unfold sliceWords. replace (i + len - i) with len by lia.
  destruct len; [intros H; exfalso; now apply H | lia].
Qed.

Lemma createPiiMatch_nonempty (wordSlice : list WordInfo) (id : nat) (pii : Pii)
    (confidence : Q) (matchType : MatchType) (r : PiiMatch) :
  createPiiMatch wordSlice id pii confidence matchType = Some r ->
  wordSlice <> [].
Proof.
  intros H. apply createPiiMatch_fields in H as (_ & _ & _ & _ & _ & H).
  intros ->. now apply H.
Qed.

Lemma window_head (i len : nat) :
  0 < len -> exists rest, windowAt i len = i :: rest.
Proof.
  unfold windowAt. destruct len; [lia | intros _]. simpl.
  rewrite Nat.add_0_r. eauto.
Qed.

Lemma Far_windows_disjoint (c1 c2 : FuzzyMatchInfo) (p : nat) :
  Far c1 c2 ->
  In p (windowAt (z_position c1) (z_matchedWords c1)) ->
  ~ In p (windowAt (z_position c2) (z_matchedWords c2)).
Proof.
  unfold Far. rewrite !in_window. simpl. lia.
Qed.

Lemma removeOverlapping_incl (arr : list FuzzyMatchInfo) (c : FuzzyMatchInfo) :
  In c (removeOverlapping arr) -> In c arr.
Proof.
  unfold removeOverlapping. rewrite in_map_iff.
  intros ([i c'] & <- & Hin). apply filter_In in Hin as [Hin _].
  simpl. eapply in_combine_r, Hin.
Qed.

Lemma StronglySorted_snoc {A} (R : A -> A -> Prop) (l : list A) (c : A) :
  StronglySorted R l -> List.Forall (fun x => R x c) l ->
  StronglySorted R (l ++ [c]).
Proof.
  intros HS. induction HS as [|a l HS IH Ha]; intros Hc; simpl.
  - repeat constructor.
  - inversion Hc; subst. constructor; [now apply IH |].
    apply List.Forall_app. split; [exact Ha | now constructor].
Qed.

(** The candidates that pass the suppression filter are pairwise far apart. *)
Lemma removeOverlapping_Far (arr : list FuzzyMatchInfo) :
  StronglySorted Far (removeOverlapping arr).
Proof.
  induction arr as [|c arr IH] using rev_ind; [constructor |].
  rewrite removeOverlapping_snoc.
  destruct (existsb _ arr) eqn:E; [now rewrite app_nil_r |].
  apply StronglySorted_snoc; [exact IH |].
  apply List.Forall_forall. intros prev Hprev.
  apply removeOverlapping_incl in Hprev. apply overlaps_false_iff.
  apply not_true_is_false. intros Ho.
  assert (existsb (fun prev => overlaps prev c) arr = true); [| congruence].
  apply existsb_exists. eauto.
Qed.

Lemma NoDup_combine_fst {A B} (l1 : list A) (l2 : list B) :
  List.NoDup l1 -> List.NoDup (combine l1 l2).
Proof.
  intros H. revert l2. induction H as [|a l1 Ha H IH]; intros [|b l2]; simpl;
    try constructor.
  - intros Hin. apply in_combine_l in Hin. contradiction.
  - apply IH.
Qed.

(** The variant list has no duplicates. *)
Lemma uniqueVariants_NoDup (l : list Variant) : List.NoDup (uniqueVariants l).
Proof.
  unfold uniqueVariants. apply NoDup_map_NoDup_ForallPairs.
  - intros [i1 v1] [i2 v2] H1 H2 Heq. simpl in Heq. subst v2.
    apply filter_In in H1 as [_ H1]. apply filter_In in H2 as [_ H2].
    apply bool_decide_eq_true_1 in H1, H2. simpl in H1, H2. congruence.
  - apply List.NoDup_filter, NoDup_combine_fst, seq_NoDup.
Qed.

Lemma fold_seq_inv (I : nat -> State -> Prop) (f : State -> nat -> State)
    (n : nat) :
  forall a st,
    I a st ->
    (forall k st', I k st' -> I (S k) (f st' k)) ->
    I (a + n) (fold_left f (seq a n) st).
Proof.
  induction n as [|n IH]; intros a st Ha Hstep; simpl.
  - now rewrite Nat.add_0_r.
  - rewrite Nat.add_succ_r. apply (IH (S a)); [| exact Hstep].
    apply Hstep, Ha.
Qed.

Lemma StartsUnclaimed_snoc (found : gset nat) (new : list Emitted) (e : Emitted) :
  StartsUnclaimed new -> Covered found new ->
  (~ isFlexible e ->
   exists p rest, e_positions e = p :: rest /\ p ∉ found) ->
  StartsUnclaimed (new ++ [e]).
Proof.
  intros HS HC He i j e1 e2 Hij H1 H2 Hnf.
  apply lookup_snoc_Some in H2 as [[Hj H2] | [Hj <-]].
  - rewrite lookup_app_l in H1 by lia. exact (HS i j e1 e2 Hij H1 H2 Hnf).
  - rewrite lookup_app_l in H1 by lia.
    destruct (He Hnf) as (p & rest & Hp & Hfree).
    exists p, rest. split; [exact Hp |]. intros Hin. apply Hfree.
    apply (HC e1 p); [| exact Hin].
    apply list_elem_of_In. eapply list_elem_of_lookup_2, H1.
Qed.

Lemma SameSearchDisjoint_snoc (new : list Emitted) (e : Emitted) :
  SameSearchDisjoint new ->
  (forall e1 p, In e1 new -> SameSearch e1 e ->
                In p (e_positions e1) -> ~ In p (e_positions e)) ->
  SameSearchDisjoint (new ++ [e]).
Proof.
  intros HD He i j e1 e2 p Hij H1 H2 Hsame Hp.
  apply lookup_snoc_Some in H2 as [[Hj H2] | [Hj <-]].
  - rewrite lookup_app_l in H1 by lia. exact (HD i j e1 e2 p Hij H1 H2 Hsame Hp).
  - rewrite lookup_app_l in H1 by lia.
    apply (He e1 p); try assumption.
    apply list_elem_of_In. eapply list_elem_of_lookup_2, H1.
Qed.

Section PhraseInvFacts.
Variable base : list Emitted.

Lemma PhraseInv_weaken (allowed allowed' : Variant -> nat -> Prop)
    (seen seen' : list FuzzyMatchInfo) (st : State) :
  (forall v s, allowed v s -> allowed' v s) ->
  (forall c, In c seen -> In c seen') ->
  PhraseInv base allowed seen st -> PhraseInv base allowed' seen' st.
Proof.
  intros Ha Hs (new & Hd & HS & HC & HD & HE & HF).
  exists new. repeat split; try assumption.
  - intros e v He Hv. destruct (HE e v He Hv) as (s & Hp & Hs'). eauto.
  - intros e He Hf. destruct (HF e He Hf) as (c & Hc & Hp). eauto.
Qed.

(** A step that pushes nothing and only claims positions. *)
Lemma PhraseInv_keep (allowed : Variant -> nat -> Prop)
    (seen : list FuzzyMatchInfo) (st st' : State) :
  piiData st' = piiData st ->
  foundPositions st ⊆ foundPositions st' ->
  PhraseInv base allowed seen st -> PhraseInv base allowed seen st'.
Proof.
  intros Hd' Hsub (new & Hd & HS & HC & HD & HE & HF).
  exists new. repeat split; try assumption; [congruence |].
  intros e p He Hp. apply Hsub. exact (HC e p He Hp).
Qed.

(** A step that pushes the record [e]. *)
Lemma PhraseInv_push (allowed allowed' : Variant -> nat -> Prop)
    (seen seen' : list FuzzyMatchInfo) (st st' : State) (e : Emitted) :
  (forall v s, allowed v s -> allowed' v s) ->
  (forall c, In c seen -> In c seen') ->
  piiData st' = piiData st ++ [e] ->
  foundPositions st ⊆ foundPositions st' ->
  (forall p, In p (e_positions e) -> p ∈ foundPositions st') ->
  (~ isFlexible e ->
   exists p rest, e_positions e = p :: rest /\ p ∉ foundPositions st) ->
  (forall v, exactOf v e ->
             exists s, e_positions e = windowAt s (length v) /\ allowed' v s) ->
  (isFuzzy e ->
   exists c, In c seen'
             /\ e_positions e = windowAt (z_position c) (z_matchedWords c)) ->
  (forall new e1 p,
      Covered (foundPositions st) new -> ExactFrom allowed new ->
      FuzzyFrom seen new -> In e1 new -> SameSearch e1 e ->
      In p (e_positions e1) -> ~ In p (e_positions e)) ->
  PhraseInv base allowed seen st -> PhraseInv base allowed' seen' st'.
Proof.
  intros Ha Hs Hd' Hsub Hcov Hstart Hex Hfz Hdis
         (new & Hd & HS & HC & HD & HE & HF).
  exists (new ++ [e]). split; [now rewrite Hd', Hd, app_assoc |].
  split; [now apply (StartsUnclaimed_snoc (foundPositions st)) |].
  split; [| split; [| split]].
  - intros e' p Hin Hp. apply in_app_or in Hin as [Hin | [<- | []]].
    + apply Hsub. exact (HC e' p Hin Hp).
    + exact (Hcov p Hp).
  - apply SameSearchDisjoint_snoc; [exact HD |].
    intros e1 p Hin. now apply (Hdis new).
  - intros e' v Hin Hv. apply in_app_or in Hin as [Hin | [<- | []]].
    + destruct (HE e' v Hin Hv) as (s & Hp & Hs'). eauto.
    + exact (Hex v Hv).
  - intros e' Hin Hf. apply in_app_or in Hin as [Hin | [<- | []]].
    + destruct (HF e' Hin Hf) as (c & Hc & Hp). eauto.
    + exact (Hfz Hf).
Qed.
End PhraseInvFacts.

Section PhraseOverlap.
Variables (pii : Pii) (wordMap : list WordInfo) (base : list Emitted).

Lemma exactAt_PhraseInv (done : list Variant) (variant : Variant) (k : nat)
    (st : State) :
  ~ In variant done ->
  PhraseInv base (duringVariant done variant k) [] st ->
  PhraseInv base (duringVariant done variant (S k)) []
    (exactAt pii wordMap variant st k).
Proof.
  intros Hfresh Hst.
  assert (Hmono : forall v s, duringVariant done variant k v s ->
                              duringVariant done variant (S k) v s).
  { unfold duringVariant. intros v s [H | [H1 H2]]; [now left | right].
    split; [exact H1 | lia]. }
  assert (Hsame : PhraseInv base (duringVariant done variant (S k)) [] st).
  { eapply PhraseInv_weaken; [exact Hmono | | exact Hst]. auto. }
  unfold exactAt.
  destruct (bool_decide (k ∈ foundPositions st)) eqn:Hk; [exact Hsame |].
  apply bool_decide_eq_false_1 in Hk.
  destruct (variant_eqb _ _); [| exact Hsame].
  set (window := windowAt k (length variant)).
  set (found' := addAll window ({[k]} ∪ foundPositions st)).
  assert (Hsub : foundPositions st ⊆ found').
  { intros p Hp. apply elem_of_addAll. right. now apply elem_of_union_r. }
  destruct (createPiiMatch _ _ _ _ _) as [r|] eqn:E.
  - pose proof (createPiiMatch_fields _ _ _ _ _ _ E)
      as (_ & _ & _ & _ & Hty & _).
    eapply (PhraseInv_push base _ _ [] [] st _
              {| e_positions := window; e_match := r |});
      try exact Hst; try exact Hmono; try reflexivity; simpl; auto.
    + intros p Hp. apply elem_of_addAll. now left.
    + intros _. apply createPiiMatch_nonempty, sliceWords_nonempty in E.
      destruct (window_head k _ E) as [rest Hrest]. eauto.
    + intros v Hv. unfold exactOf in Hv. simpl in Hv.
      rewrite Hty in Hv. injection Hv as <-.
      exists k. split; [reflexivity |]. right. split; [reflexivity | lia].
    + intros [c Hc]. simpl in Hc. congruence.
    + intros new e1 p HC HE _ Hin Hsame' Hp.
      destruct Hsame' as [[_ [c Hc]] | (v & Hv1 & Hv)];
        [simpl in Hc; congruence |].
      unfold exactOf in Hv. simpl in Hv. rewrite Hty in Hv. injection Hv as <-.
      destruct (HE e1 variant Hin Hv1) as (s & Hpos & [Hdone | [_ Hs]]);
        [contradiction |].
      rewrite Hpos in Hp. unfold window. rewrite in_window.
      apply in_window in Hp. intros Hp'.
      apply Hk, (HC e1 k Hin). rewrite Hpos. apply in_window. lia.
  - eapply PhraseInv_keep; [| | exact Hsame]; simpl; [reflexivity | exact Hsub].
Qed.

Lemma exactVariant_PhraseInv (done : list Variant) (variant : Variant)
    (st : State) :
  ~ In variant done ->
  PhraseInv base (afterVariants done) [] st ->
  PhraseInv base (afterVariants (variant :: done)) []
    (exactVariant pii wordMap st variant).
Proof.
  intros Hfresh Hst. unfold exactVariant.
  eapply PhraseInv_weaken;
    [| | apply (fold_seq_inv
                  (fun k => PhraseInv base (duringVariant done variant k) [])
                  (exactAt pii wordMap variant) _ 0 st)].
  - unfold duringVariant, afterVariants. intros v s [H | [-> _]];
      [now right | now left].
  - auto.
  - eapply PhraseInv_weaken; [| | exact Hst]; [| auto].
    unfold duringVariant, afterVariants. intros v s H. now left.
  - intros k st'. now apply exactAt_PhraseInv.
Qed.

Lemma exactStep_PhraseInv (searchVariants : list Variant) :
  forall (done : list Variant) (st : State),
    List.NoDup searchVariants ->
    (forall v, In v searchVariants -> ~ In v done) ->
    PhraseInv base (afterVariants done) [] st ->
    PhraseInv base (fun _ _ => True) []
      (exactStep pii wordMap searchVariants st).
Proof.
  unfold exactStep.
  induction searchVariants as [|variant l IH]; intros done st Hnd Hfresh Hst;
    simpl.
  - eapply PhraseInv_weaken; [| | exact Hst]; auto.
  - inversion Hnd as [|? ? Hnot Hnd']; subst.
    apply (IH (variant :: done)); [exact Hnd' | |].
    + intros v Hv [<- | Hd]; [contradiction |].
      apply (Hfresh v); [now right | exact Hd].
    + apply exactVariant_PhraseInv; [| exact Hst]. apply Hfresh. now left.
Qed.

Lemma flexibleAt_PhraseInv (allowed : Variant -> nat -> Prop) (st : State)
    (flexMatch : FlexMatch) :
  PhraseInv base allowed [] st ->
  PhraseInv base allowed [] (flexibleAt pii st flexMatch).
Proof.
  intros Hst. unfold flexibleAt.
  destruct (createPiiMatch _ _ _ _ _) as [r|] eqn:E.
  - pose proof (createPiiMatch_fields _ _ _ _ _ _ E)
      as (_ & _ & _ & _ & Hty & _).
    eapply (PhraseInv_push base _ _ [] [] st _
              {| e_positions := f_positions flexMatch; e_match := r |});
      try exact Hst; try reflexivity; simpl; auto.
    + apply addAll_subseteq.
    + intros p Hp. apply elem_of_addAll. now left.
    + intros Hnf. exfalso. apply Hnf. unfold isFlexible. simpl. eauto.
    + intros v Hv. unfold exactOf in Hv. simpl in Hv. congruence.
    + intros [c Hc]. simpl in Hc. congruence.
    + intros new e1 p _ _ _ _ [[_ [c Hc]] | (v & _ & Hv)] _;
        [simpl in Hc | unfold exactOf in Hv; simpl in Hv]; congruence.
  - eapply PhraseInv_keep; [| | exact Hst]; simpl; [reflexivity | set_solver].
Qed.

Lemma fuzzyAt_PhraseInv (allowed : Variant -> nat -> Prop)
    (seen : list FuzzyMatchInfo) (st : State) (c : FuzzyMatchInfo) :
  (forall c', In c' seen -> Far c' c) ->
  PhraseInv base allowed seen st ->
  PhraseInv base allowed (seen ++ [c]) (fuzzyAt pii wordMap st c).
Proof.
  intros Hfar Hst.
  assert (Hincl : forall c', In c' seen -> In c' (seen ++ [c])).
  { intros c' H. apply in_or_app. now left. }
  assert (Hsame : PhraseInv base allowed (seen ++ [c]) st).
  { eapply PhraseInv_weaken; [| exact Hincl | exact Hst]. auto. }
  unfold fuzzyAt.
  destruct (bool_decide (z_position c ∈ foundPositions st)) eqn:Hk;
    [exact Hsame |].
  apply bool_decide_eq_false_1 in Hk.
  set (window := windowAt (z_position c) (z_matchedWords c)).
  destruct (createPiiMatch _ _ _ _ _) as [r|] eqn:E.
  - pose proof (createPiiMatch_fields _ _ _ _ _ _ E)
      as (_ & _ & _ & _ & Hty & _).
    eapply (PhraseInv_push base allowed allowed seen (seen ++ [c]) st _
              {| e_positions := window; e_match := r |});
      try exact Hst; try exact Hincl; try reflexivity; simpl; auto.
    + apply addAll_subseteq.
    + intros p Hp. apply elem_of_addAll. now left.
    + intros _. apply createPiiMatch_nonempty, sliceWords_nonempty in E.
      destruct (window_head (z_position c) _ E) as [rest Hrest]. eauto.
    + intros v Hv. unfold exactOf in Hv. simpl in Hv. congruence.
    + intros _. exists c. split; [| reflexivity].
      apply in_or_app. right. now left.
    + intros new e1 p _ _ HF Hin Hsame' Hp.
      destruct Hsame' as [[Hf1 _] | (v & _ & Hv)];
        [| unfold exactOf in Hv; simpl in Hv; congruence].
      destruct (HF e1 Hin Hf1) as (c1 & Hc1 & Hpos). rewrite Hpos in Hp.
      exact (Far_windows_disjoint c1 c p (Hfar c1 Hc1) Hp).
  - eapply PhraseInv_keep; [| | exact Hsame]; simpl; [reflexivity | set_solver].
Qed.

Lemma fuzzyLoop_PhraseInv (allowed : Variant -> nat -> Prop)
    (candidates : list FuzzyMatchInfo) :
  forall (seen : list FuzzyMatchInfo) (st : State),
    StronglySorted Far candidates ->
    (forall c' c, In c' seen -> In c candidates -> Far c' c) ->
    PhraseInv base allowed seen st ->
    PhraseInv base allowed (seen ++ candidates)
      (fold_left (fuzzyAt pii wordMap) candidates st).
Proof.
  induction candidates as [|c l IH]; intros seen st HS Hfar Hst; simpl.
  - now rewrite app_nil_r.
  - inversion HS as [|? ? HS' Hc]; subst.
    replace (seen ++ c :: l) with ((seen ++ [c]) ++ l)
      by (now rewrite <- app_assoc).
    apply IH; [exact HS' | |].
    + intros c' c'' Hin Hl. apply in_app_or in Hin as [Hin | [<- | []]].
      * apply Hfar; [exact Hin | now right].
      * rewrite List.Forall_forall in Hc. now apply Hc.
    + apply fuzzyAt_PhraseInv; [| exact Hst].
      intros c' Hc'. apply Hfar; [exact Hc' | now left].
Qed.

Lemma phrase_steps_PhraseInv (st : State) :
  piiData st = base ->
  foundPositions st = ∅ ->
  exists seen,
    PhraseInv base (fun _ _ => True) seen
      (fuzzyStep pii wordMap
         (flexibleStep pii wordMap (createSearchVariants (pii_text pii))
            (exactStep pii wordMap (createSearchVariants (pii_text pii)) st))).
Proof.
  intros Hd Hf.
  assert (H0 : PhraseInv base (afterVariants []) [] st).
  { exists []. rewrite app_nil_r. repeat split; try assumption.
    - intros i j e1 e2 _ H. discriminate H.
    - intros e p [].
    - intros i j e1 e2 p _ H. discriminate H.
    - intros e v [].
    - intros e []. }
  assert (H1 : PhraseInv base (fun _ _ => True) []
                 (exactStep pii wordMap (createSearchVariants (pii_text pii)) st)).
  { apply (exactStep_PhraseInv _ []); [apply uniqueVariants_NoDup | | exact H0].
    intros v _ []. }
  set (st1 := exactStep pii wordMap (createSearchVariants (pii_text pii)) st) in *.
  assert (H2 : PhraseInv base (fun _ _ => True) []
                 (flexibleStep pii wordMap (createSearchVariants (pii_text pii)) st1)).
  { unfold flexibleStep. destruct (flexibleRuns _ _); [| exact H1].
    generalize (findFlexibleMatches (createSearchVariants (pii_text pii)) wordMap
                  (foundPositions st1)).
    intros l. revert H1. generalize st1. induction l as [|fm l IH];
      intros st' Hst'; simpl; [exact Hst' |].
    apply IH, flexibleAt_PhraseInv, Hst'. }
  unfold fuzzyStep. destruct (_ <? _); [| exists []; exact H2].
  exists ([] ++ fuzzyMatchPII (pii_text pii) wordMap (85 # 100)).
  apply fuzzyLoop_PhraseInv; [apply removeOverlapping_Far | | exact H2].
  intros c' c [].
Qed.
End PhraseOverlap.

(** C1, as the code has it. Among the records pushed while one phrase is
    processed, every exact or fuzzy record starts at a word position that no
    record pushed before it for that phrase covers; two fuzzy records cover
    no common word position, and neither do two exact records of the same
    variant. *)
Theorem phrase_records_overlap_limits (before : list Pii) (pii : Pii)
    (words : list WordInfo) :
  exists new,
    mapPiiToBboxTrace (before ++ [pii]) words
    = mapPiiToBboxTrace before words ++ new
    /\ StartsUnclaimed new
    /\ SameSearchDisjoint new.
Proof.
  destruct (mapPiiToBboxTrace_snoc before pii words) as (st & Hst & ->).
  unfold processPii.
  set (st0 := {| instanceCount := 0; foundPositions := ∅;
                 piiIdCounter := piiIdCounter st; piiData := piiData st |}).
  destruct (phrase_steps_PhraseInv pii (normalizeWords words) (piiData st) st0
              eq_refl eq_refl)
    as (seen & new & Hd & HS & _ & HD & _).
  exists new. rewrite <- Hst. repeat split; assumption.
Qed.

(** C1 as stated fails, in the flexible and in the exact step. For the
    phrase "A B C-D" the two flexible combinations returned share the words
    at positions 2 and 3. For the phrase "B A-B" the base variant matches the
    words at positions 2 and 3, and the separator-expansion variant then
    matches the words at positions 0, 1 and 2, whose start is not claimed:
    two records cover word 2. *)
Lemma records_of_a_phrase_share_words :
  List.map e_positions (mapPiiToBboxTrace [phrase "A B C-D"] twiceWords)
  = [[4; 2; 3]; [0; 2; 3]]
  /\ ~ NoSharedPosition (mapPiiToBboxTrace [phrase "A B C-D"] twiceWords)
  /\ List.map e_positions (mapPiiToBboxTrace [phrase "B A-B"] sharedWords)
     = [[2; 3]; [0; 1; 2]]
  /\ ~ NoSharedPosition (mapPiiToBboxTrace [phrase "B A-B"] sharedWords).
Proof.
  assert (Hshare : forall l ps1 ps2,
             List.map e_positions l = [ps1; ps2] ->
             In 2 ps1 -> In 2 ps2 -> ~ NoSharedPosition l).
  { intros [|e1 [|e2 [|e3 l]]] ps1 ps2 Hl H1 H2 H; try discriminate Hl.
    injection Hl as <- <-.
    apply (H 0 1 e1 e2 2); [lia | reflexivity | reflexivity | exact H1 | exact H2]. }
  assert (H1 : List.map e_positions
                 (mapPiiToBboxTrace [phrase "A B C-D"] twiceWords)
               = [[4; 2; 3]; [0; 2; 3]]) by (vm_compute; reflexivity).
  assert (H2 : List.map e_positions
                 (mapPiiToBboxTrace [phrase "B A-B"] sharedWords)
               = [[2; 3]; [0; 1; 2]]) by (vm_compute; reflexivity).
  split; [exact H1 | split; [| split; [exact H2 |]]].
  - apply (Hshare _ _ _ H1); simpl; auto.
  - apply (Hshare _ _ _ H2); simpl; auto.
Qed.

(** ** The variants as segmentations of the normalized phrase *)

Lemma chars_str (l : list ascii) : Js.chars (Js.str l) = l.
Proof. apply list_ascii_of_string_of_list_ascii. Qed.

Lemma str_chars (s : string) : Js.str (Js.chars s) = s.
Proof. apply string_of_list_ascii_of_string. Qed.

Lemma chars_append (s1 s2 : string) :
  Js.chars (String.append s1 s2) = Js.chars s1 ++ Js.chars s2.
Proof.
  induction s1 as [|c s1 IH]; simpl; [reflexivity |].
  unfold Js.chars in *. simpl. now rewrite IH.
Qed.

Lemma chars_join (l : list string) :
  Js.chars (Js.join l) = flat_map Js.chars l.
Proof.
  unfold Js.join. induction l as [|x l IH]; [reflexivity |].
  destruct l as [|y l].
  - simpl. now rewrite app_nil_r.
  - change (String.concat "" (x :: y :: l))
      with (String.append x (String.concat "" (y :: l))).
    rewrite chars_append, IH. reflexivity.
Qed.

Lemma chars_inj (s1 s2 : string) : Js.chars s1 = Js.chars s2 -> s1 = s2.
Proof.
  intros H. rewrite <- (str_chars s1), <- (str_chars s2). now rewrite H.
Qed.

Lemma space_not_alnum (c : ascii) :
  Js.is_space c = true -> Js.is_alnum c = false.
Proof.
  unfold Js.is_space, Js.is_alnum, Js.is_letter, Js.is_upper, Js.is_lower,
    Js.is_digit.
  intros H. apply not_true_is_false. intros H'.
  repeat rewrite ?orb_true_iff, ?andb_true_iff, ?Nat.leb_le, ?Nat.eqb_eq in H.
  repeat rewrite ?orb_true_iff, ?andb_true_iff, ?Nat.leb_le, ?Nat.eqb_eq in H'.
  lia.
Qed.

Lemma separator_not_alnum (c : ascii) :
  Js.is_hyphen c = true \/ Js.is_punct c = true -> Js.is_alnum c = false.
Proof.
  unfold Js.is_hyphen, Js.is_punct, Js.is_alnum, Js.is_letter, Js.is_upper,
    Js.is_lower, Js.is_digit.
  intros H. apply not_true_is_false. intros H'.
  repeat rewrite ?orb_true_iff, ?andb_true_iff, ?Nat.leb_le, ?Nat.eqb_eq in H.
  repeat rewrite ?orb_true_iff, ?andb_true_iff, ?Nat.leb_le, ?Nat.eqb_eq in H'.
  lia.
Qed.

Lemma filter_dropSpaces (l : list ascii) :
  List.filter Js.is_alnum (Js.dropSpaces l) = List.filter Js.is_alnum l.
Proof.
  induction l as [|c l IH]; simpl; [reflexivity |].
  destruct (Js.is_space c) eqn:E; [| reflexivity].
  now rewrite (space_not_alnum c E).
Qed.

Lemma filter_splitFrom (l : list ascii) :
  forall inRun cur,
    (inRun = true -> cur = []) ->
    List.filter Js.is_alnum (flat_map Js.chars (Js.splitFrom inRun cur l))
    = List.filter Js.is_alnum (List.rev cur ++ l).
Proof.
  induction l as [|c l IH]; intros inRun cur Hrun; simpl.
  - now rewrite chars_str.
  - destruct (Js.is_space c) eqn:E.
    + pose proof (space_not_alnum c E) as Hc.
      destruct inRun.
      * rewrite (Hrun eq_refl). simpl. rewrite Hc.
        now rewrite (IH true []).
      * simpl. rewrite chars_str, !List.filter_app. simpl. rewrite Hc.
        now rewrite (IH true []).
    + rewrite (IH false (c :: cur)); [| discriminate].
      simpl. now rewrite <- app_assoc.
Qed.

Lemma flat_map_strip (l : list string) :
  flat_map Js.chars (List.map Js.stripNonAlnum l)
  = List.filter Js.is_alnum (flat_map Js.chars l).
Proof.
  induction l as [|s l IH]; simpl; [reflexivity |].
  unfold Js.stripNonAlnum at 1. now rewrite chars_str, List.filter_app, IH.
Qed.

(** Splitting at white space, normalizing the pieces and joining them again
    gives the normalized string. *)
Lemma join_strip_split (s : string) :
  Js.join (List.map Js.stripNonAlnum (Js.splitSpaces s)) = Js.stripNonAlnum s.
Proof.
  apply chars_inj. rewrite chars_join, flat_map_strip.
  unfold Js.splitSpaces, Js.stripNonAlnum.
  rewrite (filter_splitFrom _ false []), chars_str; [reflexivity | discriminate].
Qed.

Lemma strip_trim (s : string) :
  Js.stripNonAlnum (Js.trim s) = Js.stripNonAlnum s.
Proof.
  unfold Js.stripNonAlnum, Js.trim. f_equal. rewrite chars_str.
  rewrite List.filter_rev, filter_dropSpaces, List.filter_rev, rev_involutive.
  apply filter_dropSpaces.
Qed.

Lemma join_tokenize (s : string) : Js.join (tokenize s) = Js.stripNonAlnum s.
Proof. unfold tokenize. now rewrite join_strip_split, strip_trim. Qed.

Lemma spaceBetween_two (p q : ascii -> bool) (c1 c2 : ascii) (l2 : list ascii) :
  Js.spaceBetween p q (c1 :: c2 :: l2)
  = if p c1 && q c2
    then c1 :: " "%char :: c2 :: Js.spaceBetween p q l2
    else c1 :: Js.spaceBetween p q (c2 :: l2).
Proof. reflexivity. Qed.

Lemma filter_spaceBetween (p q : ascii -> bool) (l : list ascii) :
  List.filter Js.is_alnum (Js.spaceBetween p q l) = List.filter Js.is_alnum l.
Proof.
  assert (H : forall n l', length l' <= n ->
              List.filter Js.is_alnum (Js.spaceBetween p q l')
              = List.filter Js.is_alnum l').
  { induction n as [|n IH]; intros l' Hl.
    - destruct l'; [reflexivity | simpl in Hl; lia].
    - destruct l' as [|c1 [|c2 l2]]; try reflexivity.
      simpl in Hl. rewrite spaceBetween_two.
      destruct (p c1 && q c2).
      + cbn [List.filter]. rewrite (IH l2) by lia.
        change (Js.is_alnum " "%char) with false. reflexivity.
      + cbn [List.filter]. rewrite (IH (c2 :: l2)) by (simpl; lia).
        reflexivity. }
  now apply (H (length l)).
Qed.

Lemma join_spacedVariantOf (singleWord : string) :
  Js.join (spacedVariantOf singleWord) = Js.stripNonAlnum singleWord.
Proof.
  unfold spacedVariantOf. rewrite join_strip_split.
  unfold Js.stripNonAlnum. now rewrite chars_str, !filter_spaceBetween.
Qed.

Lemma strip_replaceBySpace (p : ascii -> bool) (s : string) :
  (forall c, p c = true -> Js.is_alnum c = false) ->
  Js.stripNonAlnum (Js.replaceBySpace p s) = Js.stripNonAlnum s.
Proof.
  intros Hp. unfold Js.stripNonAlnum, Js.replaceBySpace. f_equal.
  rewrite chars_str. induction (Js.chars s) as [|c l IH]; simpl; [reflexivity |].
  rewrite IH. destruct (p c) eqn:E; [| reflexivity].
  rewrite (Hp c E). reflexivity.
Qed.

Lemma join_drop_empty (l : list string) :
  Js.join (List.filter (fun word => 0 <? String.length word) l) = Js.join l.
Proof.
  apply chars_inj. rewrite !chars_join.
  induction l as [|s l IH]; simpl; [reflexivity |].
  destruct s as [|c s]; simpl; [exact IH | now rewrite IH].
Qed.

Lemma join_expandHyphensOf (piiText : string) :
  Js.join (expandHyphensOf piiText) = Js.stripNonAlnum piiText.
Proof.
  unfold expandHyphensOf. rewrite join_drop_empty, join_tokenize.
  rewrite !strip_replaceBySpace; [reflexivity | |];
    intros c Hc; apply separator_not_alnum; auto.
Qed.

Lemma substring_append (s : string) :
  forall n m k,
    String.append (substring n m s) (substring (n + m) k s)
    = substring n (m + k) s.
Proof.
  induction s as [|c s IH]; intros n m k.
  - destruct n, m, k; reflexivity.
  - destruct n as [|n].
    + destruct m as [|m]; [reflexivity |].
      change (String c (String.append (substring 0 m s)
                          (substring (0 + m) k s))
              = String c (substring 0 (m + k) s)).
      f_equal. apply (IH 0 m k).
    + simpl. apply IH.
Qed.

Lemma substring_whole (s : string) : substring 0 (String.length s) s = s.
Proof. induction s as [|c s IH]; simpl; [reflexivity | now rewrite IH]. Qed.

Lemma slice_sliceFrom (s : string) (i j : nat) :
  i <= j <= String.length s ->
  String.append (Js.slice s i j) (Js.sliceFrom s j) = Js.sliceFrom s i.
Proof.
  intros H. unfold Js.slice, Js.sliceFrom.
  replace j with (i + (j - i)) at 2 by lia.
  rewrite substring_append. f_equal. lia.
Qed.

Lemma sliceFrom_0 (s : string) : Js.sliceFrom s 0 = s.
Proof. unfold Js.sliceFrom. rewrite Nat.sub_0_r. apply substring_whole. Qed.

Lemma join_two (a b : string) : Js.join [a; b] = String.append a b.
Proof. reflexivity. Qed.

Lemma join_three (a b c : string) :
  Js.join [a; b; c] = String.append a (String.append b c).
Proof. reflexivity. Qed.

Lemma join_possibleSplits (word : string) (split : Variant) :
  In split (possibleSplits word) -> Js.join split = word.
Proof.
  unfold possibleSplits. rewrite in_flat_map.
  intros (i & Hi & Hin). apply in_seq in Hi.
  apply in_app_or in Hin as [Hin | Hin].
  - destruct (boundary _ _); [| destruct Hin].
    destruct Hin as [<- | []]. rewrite join_two.
    rewrite slice_sliceFrom by lia. apply sliceFrom_0.
  - destruct (_ && _); [| destruct Hin].
    unfold threeWaySplit in Hin.
    destruct (List.find _ _) as [j|] eqn:Ef; [| destruct Hin].
    apply find_some in Ef as [Hj _]. apply in_seq in Hj.
    destruct Hin as [<- | []]. rewrite join_three.
    rewrite (slice_sliceFrom word i j) by lia.
    rewrite slice_sliceFrom by lia. apply sliceFrom_0.
Qed.

Lemma strip_idempotent (s : string) :
  Js.stripNonAlnum (Js.stripNonAlnum s) = Js.stripNonAlnum s.
Proof.
  unfold Js.stripNonAlnum. rewrite chars_str. f_equal.
  induction (Js.chars s) as [|c l IH]; simpl; [reflexivity |].
  destruct (Js.is_alnum c) eqn:E; simpl; [now rewrite E, IH | exact IH].
Qed.

Lemma createSearchVariants_origin (piiText : string) (v : Variant) :
  In v (createSearchVariants piiText) ->
  v = tokenize piiText
  \/ (v = [Js.join (tokenize piiText)] /\ 1 < length (tokenize piiText))
  \/ (exists word, tokenize piiText = [word] /\ v = spacedVariantOf word)
  \/ v = expandHyphensOf piiText
  \/ (exists word, tokenize piiText = [word] /\ In v (possibleSplits word)).
Proof.
  unfold createSearchVariants, normalizedWordsOf. intros Hv.
  apply uniqueVariants_incl in Hv.
  apply in_app_or in Hv as [[<- | []] | Hv]; [now left |].
  apply in_app_or in Hv as [Hv | Hv].
  { unfold mergedVariants in Hv. destruct (1 <? _) eqn:E; [| destruct Hv].
    destruct Hv as [<- | []]. apply Nat.ltb_lt in E. right; left. now split. }
  apply in_app_or in Hv as [Hv | Hv].
  { unfold spacedVariants in Hv.
    destruct (tokenize piiText) as [|word [|? ?]]; try destruct Hv.
    destruct (1 <? _); [| destruct Hv]. destruct Hv as [<- | []].
    right; right; left. eauto. }
  apply in_app_or in Hv as [Hv | Hv].
  { unfold hyphenVariants in Hv. destruct (_ || _); [| destruct Hv].
    destruct Hv as [<- | []]. right; right; right; now left. }
  unfold splitVariants in Hv.
  destruct (tokenize piiText) as [|word [|? ?]]; try destruct Hv.
  destruct (4 <=? _); [| destruct Hv].
  apply filter_In in Hv as [Hv _]. right; right; right; right. eauto.
Qed.

(** X1. Every variant generated for a phrase is a segmentation of one and
    the same string: joining its tokens gives the phrase with everything but
    letters and digits removed. *)
Theorem variants_segment_normalized_phrase (piiText : string) (v : Variant) :
  In v (createSearchVariants piiText) ->
  Js.join v = Js.stripNonAlnum piiText.
Proof.
  intros Hv. pose proof (join_tokenize piiText) as Hbase.
  apply createSearchVariants_origin in Hv
    as [-> | [[-> _] | [(word & Hw & ->) | [-> | (word & Hw & Hv)]]]].
  - exact Hbase.
  - exact Hbase.
  - rewrite join_spacedVariantOf. rewrite Hw in Hbase.
    change (word = Js.stripNonAlnum piiText) in Hbase.
    rewrite Hbase. apply strip_idempotent.
  - apply join_expandHyphensOf.
  - rewrite (join_possibleSplits word v Hv). rewrite Hw in Hbase. exact Hbase.
Qed.

Lemma variants_segment_normalized_phrase_witness :
  Js.join ["AF12"; "HPV"] = Js.stripNonAlnum "AF-12 HPV".
Proof.
  apply (variants_segment_normalized_phrase "AF-12 HPV" ["AF12"; "HPV"]).
  vm_compute. left. reflexivity.
Defined.

Lemma AlnumOnly_strip (s : string) : AlnumOnly (Js.stripNonAlnum s).
Proof.
  unfold AlnumOnly, Js.stripNonAlnum. rewrite chars_str.
  apply List.Forall_forall. intros c Hc. now apply filter_In in Hc.
Qed.

Lemma AlnumOnly_join (l : list string) :
  List.Forall AlnumOnly l -> AlnumOnly (Js.join l).
Proof.
  unfold AlnumOnly at 2. rewrite chars_join.
  induction 1 as [|s l Hs Hl IH]; simpl; [constructor |].
  apply List.Forall_app. split; [exact Hs | exact IH].
Qed.

Lemma in_chars_substring (s : string) :
  forall n m c, In c (Js.chars (substring n m s)) -> In c (Js.chars s).
Proof.
  induction s as [|a s IH]; intros n m c.
  - destruct n, m; simpl; tauto.
  - destruct n as [|n].
    + destruct m as [|m]; [intros [] |].
      change (Js.chars (substring 0 (S m) (String a s)))
        with (a :: Js.chars (substring 0 m s)).
      change (Js.chars (String a s)) with (a :: Js.chars s).
      intros [<- | H]; [now left | right; exact (IH 0 m c H)].
    + change (substring (S n) m (String a s)) with (substring n m s).
      change (Js.chars (String a s)) with (a :: Js.chars s).
      intros H. right. exact (IH n m c H).
Qed.

Lemma AlnumOnly_substring (s : string) (n m : nat) :
  AlnumOnly s -> AlnumOnly (substring n m s).
Proof.
  unfold AlnumOnly. rewrite !List.Forall_forall. intros H c Hc.
  apply H. exact (in_chars_substring s n m c Hc).
Qed.

Lemma possibleSplits_parts (word : string) (split : Variant) (part : string) :
  In split (possibleSplits word) -> In part split ->
  exists n m, part = substring n m word.
Proof.
  unfold possibleSplits. rewrite in_flat_map.
  intros (i & _ & Hin) Hpart.
  apply in_app_or in Hin as [Hin | Hin].
  - destruct (boundary _ _); [| destruct Hin].
    destruct Hin as [<- | []].
    destruct Hpart as [<- | [<- | []]]; unfold Js.slice, Js.sliceFrom; eauto.
  - destruct (_ && _); [| destruct Hin].
    unfold threeWaySplit in Hin.
    destruct (List.find _ _) as [j|]; [| destruct Hin].
    destruct Hin as [<- | []].
    destruct Hpart as [<- | [<- | [<- | []]]];
      unfold Js.slice, Js.sliceFrom; eauto.
Qed.

Lemma tokenize_AlnumOnly (s : string) : List.Forall AlnumOnly (tokenize s).
Proof.
  unfold tokenize. apply List.Forall_forall. intros tok Htok.
  apply in_map_iff in Htok as (raw & <- & _). apply AlnumOnly_strip.
Qed.

(** X2. Every token of every variant consists of letters and digits only. *)
Theorem variant_tokens_alphanumeric (piiText : string) (v : Variant)
    (tok : string) :
  In v (createSearchVariants piiText) -> In tok v -> AlnumOnly tok.
Proof.
  intros Hv Htok. pose proof (tokenize_AlnumOnly piiText) as Hbase.
  apply createSearchVariants_origin in Hv
    as [-> | [[-> _] | [(word & Hw & ->) | [-> | (word & Hw & Hv)]]]].
  - rewrite List.Forall_forall in Hbase. now apply Hbase.
  - destruct Htok as [<- | []]. now apply AlnumOnly_join.
  - unfold spacedVariantOf in Htok.
    apply in_map_iff in Htok as (raw & <- & _). apply AlnumOnly_strip.
  - unfold expandHyphensOf in Htok. apply filter_In in Htok as [Htok _].
    pose proof (tokenize_AlnumOnly
                  (Js.replaceBySpace Js.is_punct
                     (Js.replaceBySpace Js.is_hyphen piiText))) as H.
    rewrite List.Forall_forall in H. now apply H.
  - destruct (possibleSplits_parts word v tok Hv Htok) as (n & m & ->).
    apply AlnumOnly_substring. rewrite Hw in Hbase. now inversion Hbase.
Qed.

Lemma variant_tokens_alphanumeric_witness : AlnumOnly "oneilsmith".
Proof.
  apply (variant_tokens_alphanumeric "john  o'neil-smith, jr."
           ["john"; "oneilsmith"; "jr"] "oneilsmith").
  - vm_compute. left. reflexivity.
  - right; left. reflexivity.
Defined.

(** X3. The variant list of a phrase is never empty: the base tokenization
    comes first, and no variant occurs twice. *)
Theorem variants_base_first_no_duplicate (piiText : string) :
  exists more,
    createSearchVariants piiText = tokenize piiText :: more
    /\ ~ In (tokenize piiText) more
    /\ List.NoDup more.
Proof.
  pose proof (uniqueVariants_NoDup
                ([normalizedWordsOf piiText]
                 ++ mergedVariants (normalizedWordsOf piiText)
                 ++ spacedVariants (normalizedWordsOf piiText)
                 ++ hyphenVariants piiText (normalizedWordsOf piiText)
                 ++ splitVariants (normalizedWordsOf piiText))) as Hnd.
  destruct (uniqueVariants_head (normalizedWordsOf piiText)
              (mergedVariants (normalizedWordsOf piiText)
               ++ spacedVariants (normalizedWordsOf piiText)
               ++ hyphenVariants piiText (normalizedWordsOf piiText)
               ++ splitVariants (normalizedWordsOf piiText))) as [more Hmore].
  exists more. unfold createSearchVariants.
  change ([normalizedWordsOf piiText]
          ++ mergedVariants (normalizedWordsOf piiText)
          ++ spacedVariants (normalizedWordsOf piiText)
          ++ hyphenVariants piiText (normalizedWordsOf piiText)
          ++ splitVariants (normalizedWordsOf piiText))
    with (normalizedWordsOf piiText
          :: mergedVariants (normalizedWordsOf piiText)
          ++ spacedVariants (normalizedWordsOf piiText)
          ++ hyphenVariants piiText (normalizedWordsOf piiText)
          ++ splitVariants (normalizedWordsOf piiText)) in *.
  rewrite Hmore in *. split; [reflexivity |].
  inversion Hnd; subst. split; assumption.
Qed.

(** ** What the flexible matcher returns *)

Lemma findFlexibleMatches_origin (searchVariants : list Variant)
    (wordMap : list WordInfo) (found : gset nat) (m : FlexMatch) :
  In m (findFlexibleMatches searchVariants wordMap found) ->
  exists variant positions,
    In variant searchVariants
    /\ 3 <= length variant
    /\ CompleteAssignment wordMap variant positions
    /\ spanOf positions <= 20
    /\ (forall p, In p positions -> p ∉ found)
    /\ m = flexMatchOf wordMap variant positions.
Proof.
  intros Hm. unfold findFlexibleMatches in Hm. apply in_firstn_in in Hm.
  apply (Permutation_in _ (sortDesc_perm f_confidence _)) in Hm.
  unfold flexibleCandidates in Hm.
  apply in_flat_map in Hm as (variant & Hv & Hm).
  apply flexibleOfVariant_spec in Hm as (H3 & positions & Hm).
  exists variant, positions. tauto.
Qed.

Lemma wordsAt_cons (wordMap : list WordInfo) (p : nat) (ps : list nat)
    (w : WordInfo) :
  wordMap !! p = Some w -> wordsAt wordMap (p :: ps) = w :: wordsAt wordMap ps.
Proof. intros H. unfold wordsAt. simpl. now rewrite H. Qed.

Lemma wordsAt_assignment (wordMap : list WordInfo) (variant : Variant)
    (positions : list nat) :
  Forall2 (wordIs wordMap) variant positions ->
  List.map text (wordsAt wordMap positions) = variant
  /\ Forall2 (fun w p => wordMap !! p = Some w)
       (wordsAt wordMap positions) positions.
Proof.
  induction 1 as [|tok p variant positions (w & Hw & Ht) _ [IH1 IH2]].
  - split; [reflexivity | constructor].
  - rewrite (wordsAt_cons _ _ _ _ Hw). simpl. rewrite IH1, Ht.
    split; [reflexivity | now constructor].
Qed.

(** X4. Every match returned by the flexible matcher belongs to a variant of
    the phrase with at least 3 tokens; its words are the words at its
    positions, one per token and with exactly the token's text, and its
    positions are pairwise different positions of the word list. *)
Theorem flexible_match_is_an_assignment (searchVariants : list Variant)
    (wordMap : list WordInfo) (foundPositions : gset nat) (m : FlexMatch) :
  In m (findFlexibleMatches searchVariants wordMap foundPositions) ->
  In (f_matchedWords m) searchVariants
  /\ 3 <= length (f_matchedWords m)
  /\ List.map text (f_words m) = f_matchedWords m
  /\ Forall2 (fun w p => wordMap !! p = Some w) (f_words m) (f_positions m)
  /\ List.NoDup (f_positions m)
  /\ (forall p, In p (f_positions m) ->
                p < length wordMap /\ p ∉ foundPositions).
Proof.
  intros Hm. apply findFlexibleMatches_origin in Hm
    as (variant & positions & Hv & H3 & [Hall Hnd] & _ & Hfree & ->).
  destruct (wordsAt_assignment wordMap variant positions Hall) as [Ht Hw].
  simpl. repeat split; try assumption.
  - clear -Hall H. induction Hall as [|tok q variant positions (w & Hw & _) _ IH].
    + destruct H.
    + destruct H as [<- | H]; [| exact (IH H)].
      now apply lookup_lt_Some in Hw.
  - now apply Hfree.
Qed.

Lemma flexible_match_is_an_assignment_witness :
  List.map text (wordsAt (spreadWords 17) [0; 1; 19]) = ["A"; "B"; "C"]
  /\ List.NoDup [0; 1; 19].
Proof.
  destruct (flexible_match_is_an_assignment [["A"; "B"; "C"]] (spreadWords 17) ∅
              (flexMatchOf (spreadWords 17) ["A"; "B"; "C"] [0; 1; 19]))
    as (_ & _ & Ht & _ & Hnd & _).
  - vm_compute. left. reflexivity.
  - split; [exact Ht | exact Hnd].
Defined.

Lemma span_ge_length (positions : list nat) :
  List.NoDup positions -> positions <> [] ->
  length positions <= spanOf positions.
Proof.
  intros Hnd Hne.
  destruct (spanOf_SpanIs positions Hne) as (lo & hi & _ & _ & Hb & ->).
  replace (hi - lo + 1) with (length (seq lo (hi - lo + 1)))
    by apply length_seq.
  apply NoDup_incl_length; [exact Hnd |].
  intros p Hp. apply in_seq. specialize (Hb p Hp). lia.
Qed.

Lemma flexConfidence_close (span : nat) :
  3 <= span <= 20 ->
  flexConfidence span = (1 - inject_Z (Z.of_nat span) / 100)%Q
  /\ (8 # 10 <= flexConfidence span <= 97 # 100)%Q.
Proof.
  intros H.
  assert (H1 : (3 <= inject_Z (Z.of_nat span))%Q).
  { change 3%Q with (inject_Z 3). rewrite <- Zle_Qle. lia. }
  assert (H2 : (inject_Z (Z.of_nat span) <= 20)%Q).
  { change 20%Q with (inject_Z 20). rewrite <- Zle_Qle. lia. }
  unfold flexConfidence.
  change (inject_Z (Z.of_nat span) / 100)%Q
    with (inject_Z (Z.of_nat span) * (1 # 100))%Q.
  generalize dependent (inject_Z (Z.of_nat span)). intros x H1 H2.
  destruct (Qle_bool (1 - x * (1 # 100)) (7 # 10)) eqn:E.
  - apply Qle_bool_iff in E. exfalso. lra.
  - split; [reflexivity | split; lra].
Qed.

(** X5. The confidence of a match returned by the flexible matcher is
    [1 - span / 100] with a span from 3 to 20, so it lies between 0.8 and
    0.97: the floor 0.7 of the source's [Math.max] is never the value. *)
Theorem flexible_confidence_range (searchVariants : list Variant)
    (wordMap : list WordInfo) (foundPositions : gset nat) (m : FlexMatch) :
  In m (findFlexibleMatches searchVariants wordMap foundPositions) ->
  3 <= spanOf (f_positions m) <= 20
  /\ f_confidence m
     = (1 - inject_Z (Z.of_nat (spanOf (f_positions m))) / 100)%Q
  /\ (8 # 10 <= f_confidence m <= 97 # 100)%Q.
Proof.
  intros Hm. apply findFlexibleMatches_origin in Hm
    as (variant & positions & _ & H3 & [Hall Hnd] & Hs & _ & ->).
  simpl.
  assert (Hlen : length positions = length variant)
    by (symmetry; apply (Forall2_length _ _ _ Hall)).
  assert (Hspan : 3 <= spanOf positions <= 20).
  { split; [| exact Hs].
    etransitivity; [| apply span_ge_length; [exact Hnd |]].
    - lia.
    - intros ->. simpl in Hlen. lia. }
  split; [exact Hspan |]. now apply flexConfidence_close.
Qed.

Lemma flexible_confidence_range_witness :
  (8 # 10 <= flexConfidence (spanOf [0%nat; 1%nat; 19%nat]) <= 97 # 100)%Q.
Proof.
  destruct (flexible_confidence_range [["A"; "B"; "C"]] (spreadWords 17) ∅
              (flexMatchOf (spreadWords 17) ["A"; "B"; "C"] [0; 1; 19]))
    as (_ & _ & H).
  - vm_compute. left. reflexivity.
  - exact H.
Defined.

Lemma acceptable_unclaimed (c : list nat) :
  acceptable ∅ c = (spanOf c <=? 20).
Proof.
  unfold acceptable.
  replace (existsb (fun pos => bool_decide (pos ∈ (∅ : gset nat))) c) with false;
    [apply andb_true_r |].
  symmetry. apply not_true_is_false. intros H.
  apply existsb_exists in H as (p & _ & Hp).
  apply bool_decide_eq_true_1 in Hp. exact (not_elem_of_empty p Hp).
Qed.

(** X6. The flexible step only ever runs on an untouched phrase: when its
    guard holds after the exact step, the exact step has pushed no record,
    taken no id and claimed no position, so the claimed-position test of the
    flexible matcher rejects nothing there. *)
Theorem flexible_runs_on_untouched_phrase (pii : Pii) (wordMap : list WordInfo)
    (searchVariants : list Variant) (st : State) :
  instanceCount st = 0 ->
  foundPositions st = ∅ ->
  flexibleRuns searchVariants (exactStep pii wordMap searchVariants st) = true ->
  exactStep pii wordMap searchVariants st = st
  /\ forall c,
       acceptable (foundPositions (exactStep pii wordMap searchVariants st)) c
       = (spanOf c <=? 20).
Proof.
  intros Hc Hf Hruns. unfold flexibleRuns in Hruns.
  apply andb_true_iff in Hruns as [_ Hz]. apply Nat.eqb_eq in Hz.
  assert (Hsame : exactStep pii wordMap searchVariants st = st).
  { unfold exactStep in *.
    apply (fold_count_zero (exactVariant pii wordMap)) in Hz;
      [tauto | apply exactVariant_mono | apply exactVariant_zero]. }
  split; [exact Hsame |]. intros c. rewrite Hsame, Hf.
  apply acceptable_unclaimed.
Qed.

Lemma flexible_runs_on_untouched_phrase_witness :
  let wordMap := normalizeWords twiceWords in
  let searchVariants := createSearchVariants "A B C-D" in
  exactStep (phrase "A B C-D") wordMap searchVariants initialState
  = initialState.
Proof.
  intros wordMap searchVariants.
  apply (flexible_runs_on_untouched_phrase (phrase "A B C-D") wordMap
           searchVariants initialState eq_refl eq_refl).
  vm_compute. reflexivity.
Defined.

(** ** What the fuzzy matcher returns *)

Lemma fuzzyCandidates_windows (piiText : string) (words : list WordInfo)
    (threshold : Q) (m : FuzzyMatchInfo) :
  In m (fuzzyCandidates piiText words threshold) <->
  exists span i,
    1 <= span <= Nat.min 5 (length words)
    /\ i + span <= length words
    /\ In m (fuzzyAtWindow (Js.toLowerCase (Js.stripNonAlnum piiText)) words
               threshold span i).
Proof.
  unfold fuzzyCandidates. rewrite in_flat_map. split.
  - intros (span & Hs & Hm). apply in_flat_map in Hm as (i & Hi & Hm).
    apply in_seq in Hs, Hi. exists span, i. repeat split; try lia. exact Hm.
  - intros (span & i & Hs & Hi & Hm). exists span. split; [apply in_seq; lia |].
    apply in_flat_map. exists i. split; [apply in_seq; lia | exact Hm].
Qed.

Lemma similarityOf_le_1 (normalizedPii candidate : string) :
  (similarityOf normalizedPii candidate <= 1)%Q.
Proof.
  unfold similarityOf.
  assert (H : (0 <= inject_Z (Z.of_nat (distance normalizedPii candidate))
                    / inject_Z (Z.of_nat (Nat.max (String.length normalizedPii)
                                            (String.length candidate))))%Q).
  { apply Qmult_le_0_compat.
    - change 0%Q with (inject_Z 0). rewrite <- Zle_Qle. lia.
    - apply Qinv_le_0_compat. change 0%Q with (inject_Z 0).
      rewrite <- Zle_Qle. lia. }
  generalize dependent (inject_Z (Z.of_nat (distance normalizedPii candidate))
                        / inject_Z (Z.of_nat (Nat.max (String.length normalizedPii)
                                                (String.length candidate))))%Q.
  intros q Hq. lra.
Qed.

Lemma fuzzyCandidates_bounds (piiText : string) (words : list WordInfo)
    (threshold : Q) (m : FuzzyMatchInfo) :
  In m (fuzzyCandidates piiText words threshold) ->
  1 <= z_matchedWords m <= 5
  /\ z_position m + z_matchedWords m <= length words
  /\ (threshold <= z_confidence m <= 1)%Q.
Proof.
  intros Hm. apply fuzzyCandidates_windows in Hm as (span & i & Hs & Hi & Hm).
  apply fuzzyAtWindow_spec in Hm as (_ & Hle & ->). simpl.
  repeat split; try lia; [exact Hle | apply similarityOf_le_1].
Qed.

Lemma fuzzyMatchPII_incl (piiText : string) (words : list WordInfo)
    (threshold : Q) (m : FuzzyMatchInfo) :
  In m (fuzzyMatchPII piiText words threshold) ->
  In m (fuzzyCandidates piiText words threshold).
Proof.
  intros Hm. unfold fuzzyMatchPII in Hm. apply removeOverlapping_incl in Hm.
  exact (Permutation_in _ (sortDesc_perm z_confidence _) Hm).
Qed.

Lemma removeOverlapping_sorted (arr : list FuzzyMatchInfo) :
  StronglySorted (Desc z_confidence) arr ->
  StronglySorted (Desc z_confidence) (removeOverlapping arr).
Proof.
  induction arr as [|c arr IH] using rev_ind; intros HS; [constructor |].
  apply StronglySorted_app_parts in HS as [HS Hc].
  rewrite removeOverlapping_snoc.
  destruct (existsb _ arr); [rewrite app_nil_r; now apply IH |].
  apply StronglySorted_snoc; [now apply IH |].
  apply List.Forall_forall. intros prev Hprev.
  apply Hc; [now apply removeOverlapping_incl | now left].
Qed.

Lemma StronglySorted_weaken {A} (R R' : A -> A -> Prop) (l : list A) :
  (forall a b, R a b -> R' a b) ->
  StronglySorted R l -> StronglySorted R' l.
Proof.
  intros HR. induction 1 as [|a l HS IH Ha]; constructor; [exact IH |].
  eapply List.Forall_impl; [| exact Ha]. apply HR.
Qed.

(** X7. The matches returned by the fuzzy matcher: each is a window of 1 to
    5 words that lies inside the word list, with a confidence between the
    threshold and 1; they are listed by descending confidence, and no two of
    their windows have a word position in common. *)
Theorem fuzzy_matches_bounded_sorted_disjoint (piiText : string)
    (words : list WordInfo) (threshold : Q) :
  let matches := fuzzyMatchPII piiText words threshold in
  (forall m, In m matches ->
             1 <= z_matchedWords m <= 5
             /\ z_position m + z_matchedWords m <= length words
             /\ (threshold <= z_confidence m <= 1)%Q)
  /\ StronglySorted (Desc z_confidence) matches
  /\ StronglySorted WindowsDisjoint matches.
Proof.
  intros matches. split; [| split].
  - intros m Hm. apply fuzzyMatchPII_incl in Hm.
    exact (fuzzyCandidates_bounds _ _ _ _ Hm).
  - apply removeOverlapping_sorted, sortDesc_sorted.
  - apply (StronglySorted_weaken Far); [| apply removeOverlapping_Far].
    intros a b Hfar p. now apply Far_windows_disjoint.
Qed.

Lemma fuzzy_matches_bounded_sorted_disjoint_witness :
  1 <= z_matchedWords chainBest <= 5
  /\ z_position chainBest + z_matchedWords chainBest <= length chainWords.
Proof.
  destruct (fuzzy_matches_bounded_sorted_disjoint "abcdefghij" chainWords
              (85 # 100)) as (H & _).
  destruct (H chainBest) as (H1 & H2 & _).
  - vm_compute. left. reflexivity.
  - split; [exact H1 | exact H2].
Defined.

Lemma removeOverlapping_head (c : FuzzyMatchInfo) (l : list FuzzyMatchInfo) :
  exists l', removeOverlapping (c :: l) = c :: l'.
Proof.
  unfold removeOverlapping, indexed.
  change (combine (seq 0 (length (c :: l))) (c :: l))
    with ((0, c) :: combine (seq 1 (length l)) l).
  cbn [List.filter fst snd firstn existsb negb List.map]. eauto.
Qed.

(** X8. The suppression never removes the best candidate: when at least one
    window reaches the threshold, the fuzzy matcher returns a non-empty list
    whose first match has the greatest confidence of all candidates. *)
Theorem fuzzy_best_candidate_kept (piiText : string) (words : list WordInfo)
    (threshold : Q) :
  fuzzyCandidates piiText words threshold <> [] ->
  exists best rest,
    fuzzyMatchPII piiText words threshold = best :: rest
    /\ In best (fuzzyCandidates piiText words threshold)
    /\ forall m, In m (fuzzyCandidates piiText words threshold) ->
                 (z_confidence m <= z_confidence best)%Q.
Proof.
  intros Hne. unfold fuzzyMatchPII.
  pose proof (sortDesc_perm z_confidence
                (fuzzyCandidates piiText words threshold)) as Hperm.
  pose proof (sortDesc_sorted z_confidence
                (fuzzyCandidates piiText words threshold)) as HS.
  destruct (sortDesc z_confidence (fuzzyCandidates piiText words threshold))
    as [|best sorted] eqn:E.
  - apply Permutation_nil in Hperm. contradiction.
  - destruct (removeOverlapping_head best sorted) as [rest Hrest].
    exists best, rest. split; [exact Hrest | split].
    + apply (Permutation_in _ Hperm). now left.
    + intros m Hm. apply (Permutation_in _ (Permutation_sym Hperm)) in Hm.
      inversion HS as [|? ? _ Hall]; subst.
      destruct Hm as [<- | Hm]; [apply Qle_refl |].
      rewrite List.Forall_forall in Hall. exact (Hall m Hm).
Qed.

Lemma fuzzy_best_candidate_kept_witness :
  exists best rest,
    fuzzyMatchPII "abcdefghij" chainWords (85 # 100) = best :: rest
    /\ In best (fuzzyCandidates "abcdefghij" chainWords (85 # 100))
    /\ forall m, In m (fuzzyCandidates "abcdefghij" chainWords (85 # 100)) ->
                 (z_confidence m <= z_confidence best)%Q.
Proof.
  apply (fuzzy_best_candidate_kept "abcdefghij" chainWords (85 # 100)).
  vm_compute. discriminate.
Defined.

(** ** The records of a call and the words they cover *)

Lemma createPiiMatch_geometry (wordSlice : list WordInfo) (id : nat) (pii : Pii)
    (confidence : Q) (matchType : MatchType) (r : PiiMatch) :
  createPiiMatch wordSlice id pii confidence matchType = Some r ->
  m_vertices r = List.filter validVertex (flat_map verticesOf wordSlice)
  /\ m_vertices r <> []
  /\ Envelope (m_vertices r) (m_bbox r)
  /\ m_confidence r = confidence
  /\ m_matchType r = matchType.
Proof.
  unfold createPiiMatch.
  set (validVertices := List.filter validVertex (flat_map verticesOf wordSlice)).
  destruct (length validVertices =? 0) eqn:E; [discriminate |].
  intros [= <-]. simpl.
  assert (Hne : validVertices <> []).
  { intros H0. rewrite H0 in E. discriminate. }
  assert (Hall : List.Forall (fun v => is_Some (vx v) /\ is_Some (vy v))
                   validVertices).
  { apply List.Forall_forall. intros v Hv. apply validVertex_spec.
    unfold validVertices in Hv. apply filter_In in Hv. tauto. }
  assert (Hx : Extremes (coords vx validVertices)
                 (minOf (coords vx validVertices))
                 (maxOf (coords vx validVertices))).
  { apply minOf_maxOf_extremes, coords_nonempty; [exact Hne |].
    eapply List.Forall_impl; [| exact Hall]. simpl. tauto. }
  assert (Hy : Extremes (coords vy validVertices)
                 (minOf (coords vy validVertices))
                 (maxOf (coords vy validVertices))).
  { apply minOf_maxOf_extremes, coords_nonempty; [exact Hne |].
    eapply List.Forall_impl; [| exact Hall]. simpl. tauto. }
  split; [reflexivity | split; [exact Hne | split; [| split; reflexivity]]].
  split.
  - replace (minOf (coords vx validVertices)
             + (maxOf (coords vx validVertices) - minOf (coords vx validVertices)))%Z
      with (maxOf (coords vx validVertices)) by lia.
    exact Hx.
  - replace (minOf (coords vy validVertices)
             + (maxOf (coords vy validVertices) - minOf (coords vy validVertices)))%Z
      with (maxOf (coords vy validVertices)) by lia.
    exact Hy.
Qed.

Lemma windowAt_S (i len : nat) :
  windowAt i (S len) = i :: windowAt (S i) len.
Proof.
  unfold windowAt. simpl. rewrite Nat.add_0_r. f_equal.
  rewrite <- seq_shift, List.map_map. apply List.map_ext. intros j. lia.
Qed.

Lemma wordsAt_window (wordMap : list WordInfo) (len : nat) :
  forall i,
    i + len <= length wordMap ->
    wordsAt wordMap (windowAt i len) = sliceWords wordMap i (i + len).
Proof.
  unfold sliceWords. induction len as [|len IH]; intros i Hi.
  - replace (i + 0 - i) with 0 by lia. reflexivity.
  - rewrite windowAt_S.
    destruct (lookup_lt_is_Some_2 wordMap i) as [w Hw]; [lia |].
    rewrite (wordsAt_cons _ _ _ _ Hw), IH by lia.
    replace (i + S len - i) with (S len) by lia.
    replace (S i + len - S i) with len by lia.
    rewrite (drop_S _ _ _ Hw). reflexivity.
Qed.

Lemma windowAt_nonempty (i len : nat) : 0 < len -> windowAt i len <> [].
Proof. intros H. destruct (window_head i len H) as [rest ->]. discriminate. Qed.

Lemma flexMatchOf_confidence (wordMap : list WordInfo) (variant : Variant)
    (positions : list nat) :
  3 <= length variant ->
  CompleteAssignment wordMap variant positions ->
  spanOf positions <= 20 ->
  length positions = length variant
  /\ (8 # 10 <= flexConfidence (spanOf positions) <= 97 # 100)%Q.
Proof.
  intros H3 [Hall Hnd] Hs.
  assert (Hlen : length positions = length variant)
    by (symmetry; apply (Forall2_length _ _ _ Hall)).
  split; [exact Hlen |]. apply flexConfidence_close. split; [| exact Hs].
  etransitivity; [| apply span_ge_length; [exact Hnd |]].
  - lia.
  - intros ->. simpl in Hlen. lia.
Qed.

Section PhraseDetail.
Variables (pii : Pii) (wordMap : list WordInfo).

Lemma exactAt_Detail (variant : Variant) (st : State) (i : nat) :
  i + length variant <= length wordMap ->
  Grows (Detail wordMap) st (exactAt pii wordMap variant st i).
Proof.
  intros Hi. unfold exactAt.
  destruct (bool_decide _); [apply Grows_refl |].
  destruct (variant_eqb _ _); [| apply Grows_refl].
  eapply Grows_push; simpl; [reflexivity | reflexivity |].
  intros r Hr. split; [now apply createPiiMatch_fields in Hr |].
  pose proof (createPiiMatch_nonempty _ _ _ _ _ _ Hr) as Hne.
  apply sliceWords_nonempty in Hne.
  apply createPiiMatch_geometry in Hr as (Hv & Hvne & Henv & Hconf & Hty).
  split.
  - unfold Geometry; simpl. split; [now apply windowAt_nonempty |].
    split; [intros p Hp; apply in_window in Hp; lia |].
    split; [now rewrite wordsAt_window | split; assumption].
  - unfold Scored; simpl. rewrite Hty. split; [exact Hconf | eauto].
Qed.

Lemma flexibleAt_Detail (searchVariants : list Variant) (found : gset nat)
    (st : State) (flexMatch : FlexMatch) :
  In flexMatch (findFlexibleMatches searchVariants wordMap found) ->
  Grows (Detail wordMap) st (flexibleAt pii st flexMatch).
Proof.
  intros Hin. unfold flexibleAt.
  destruct (createPiiMatch _ _ _ _ _) as [r|] eqn:E.
  - apply (Grows_push _ _ _ (f_positions flexMatch) (Some r));
      [reflexivity | reflexivity |].
    intros r' [= <-]. split; [now apply createPiiMatch_fields in E |].
    apply createPiiMatch_geometry in E as (Hv & Hvne & Henv & Hconf & Hty).
    apply findFlexibleMatches_origin in Hin
      as (variant & positions & _ & H3 & Hassign & Hs & _ & ->).
    destruct (flexMatchOf_confidence wordMap variant positions H3 Hassign Hs)
      as [Hlen Hrange].
    simpl in *. split.
    + unfold Geometry; simpl. split.
      { intros ->. simpl in Hlen. lia. }
      split.
      { destruct Hassign as [Hall _]. clear -Hall. intros p Hp.
        induction Hall as [|tok q variant positions (w & Hw & _) _ IH];
          [destruct Hp |].
        destruct Hp as [<- | Hp]; [| exact (IH Hp)].
        now apply lookup_lt_Some in Hw. }
      split; [exact Hv | split; assumption].
    + unfold Scored; simpl. rewrite Hty, Hconf.
      split; [now symmetry | split; [exact H3 | exact Hrange]].
  - apply Grows_same_data; simpl; [reflexivity | lia].
Qed.

Lemma fuzzyAt_Detail (piiText : string) (st : State) (c : FuzzyMatchInfo) :
  In c (fuzzyMatchPII piiText wordMap (85 # 100)) ->
  Grows (Detail wordMap) st (fuzzyAt pii wordMap st c).
Proof.
  intros Hin. apply fuzzyMatchPII_incl, fuzzyCandidates_bounds in Hin
    as (Hspan & Hfit & Hconf').
  unfold fuzzyAt.
  destruct (bool_decide _); [apply Grows_refl |].
  destruct (createPiiMatch _ _ _ _ _) as [r|] eqn:E.
  - apply (Grows_push _ _ _
             (windowAt (z_position c) (z_matchedWords c)) (Some r));
      [reflexivity | reflexivity |].
    intros r' [= <-]. split; [now apply createPiiMatch_fields in E |].
    apply createPiiMatch_geometry in E as (Hv & Hvne & Henv & Hconf & Hty).
    split.
    + unfold Geometry; simpl. split; [apply windowAt_nonempty; lia |].
      split; [intros p Hp; apply in_window in Hp; lia |].
      split; [now rewrite wordsAt_window | split; assumption].
    + unfold Scored; simpl. rewrite Hty.
      split; [exact Hconf | split; [exact Hconf' |]].
      exists (z_position c), (z_matchedWords c). split; [exact Hspan | reflexivity].
  - apply Grows_same_data; simpl; [reflexivity | lia].
Qed.

Lemma exactStep_Detail (searchVariants : list Variant) (st : State) :
  Grows (Detail wordMap) st (exactStep pii wordMap searchVariants st).
Proof.
  unfold exactStep. apply Grows_fold_left. intros st' variant _.
  unfold exactVariant. apply Grows_fold_left. intros st'' i Hi.
  apply exactAt_Detail. apply in_seq in Hi. unfold Variant in *. lia.
Qed.

Lemma flexibleStep_Detail (searchVariants : list Variant) (st : State) :
  Grows (Detail wordMap) st (flexibleStep pii wordMap searchVariants st).
Proof.
  unfold flexibleStep. destruct (flexibleRuns _ _); [| apply Grows_refl].
  apply Grows_fold_left. intros st' fm Hfm.
  exact (flexibleAt_Detail _ _ st' fm Hfm).
Qed.

Lemma fuzzyStep_Detail (st : State) :
  Grows (Detail wordMap) st (fuzzyStep pii wordMap st).
Proof.
  unfold fuzzyStep. destruct (_ <? _); [| apply Grows_refl].
  apply Grows_fold_left. intros st' c Hc.
  exact (fuzzyAt_Detail _ st' c Hc).
Qed.

Lemma processPii_Detail (st : State) :
  Grows (Detail wordMap) st (processPii wordMap st pii).
Proof.
  unfold processPii.
  set (st0 := {| instanceCount := 0; foundPositions := ∅;
                 piiIdCounter := piiIdCounter st; piiData := piiData st |}).
  eapply Grows_trans;
    [apply (Grows_same_data _ st st0); simpl; [reflexivity | lia] |].
  eapply Grows_trans; [apply exactStep_Detail |].
  eapply Grows_trans; [apply flexibleStep_Detail |].
  apply fuzzyStep_Detail.
Qed.
End PhraseDetail.

Lemma call_Detail (piiList : list Pii) (words : list WordInfo) (e : Emitted) :
  In e (mapPiiToBboxTrace piiList words) -> Detail (normalizeWords words) e.
Proof.
  unfold mapPiiToBboxTrace.
  destruct (Grows_fold_left (Detail (normalizeWords words))
              (processPii (normalizeWords words)) piiList
              (fun st pii _ => processPii_Detail pii (normalizeWords words) st)
              initialState)
    as (_ & new & Hd & F & _).
  simpl in Hd. rewrite Hd. intros He.
  rewrite List.Forall_forall in F. now apply F.
Qed.

Lemma lookup_normalizeWords (words : list WordInfo) (p : nat) :
  normalizeWords words !! p
  = option_map (fun w => {| text := Js.stripNonAlnum (text w);
                            boundingBox := boundingBox w |}) (words !! p).
Proof.
  revert p. induction words as [|w words IH]; intros [|p]; simpl;
    try reflexivity. apply IH.
Qed.

Lemma wordsAt_step (wordMap : list WordInfo) (p : nat) (ps : list nat) :
  wordsAt wordMap (p :: ps)
  = match wordMap !! p with Some w => [w] | None => [] end
    ++ wordsAt wordMap ps.
Proof. reflexivity. Qed.

Lemma vertices_of_normalized (words : list WordInfo) (positions : list nat) :
  flat_map verticesOf (wordsAt (normalizeWords words) positions)
  = flat_map verticesOf (wordsAt words positions).
Proof.
  induction positions as [|p ps IH]; [reflexivity |].
  rewrite !wordsAt_step, !flat_map_app, IH, lookup_normalizeWords.
  destruct (words !! p) as [w|]; reflexivity.
Qed.



(** X10. When no word has a vertex with numeric [x] and [y], in particular
    when the word list is empty, the call returns no record, whatever the
    phrases are. *)
Theorem no_polygon_no_record (piiList : list Pii) (words : list WordInfo) :
  (forall w, In w words -> List.filter validVertex (verticesOf w) = []) ->
  mapPiiToBbox piiList words = [].
Proof.
  intros Hbare. unfold mapPiiToBbox.
  destruct (mapPiiToBboxTrace piiList words) as [|e l] eqn:E; [reflexivity |].
  exfalso.
  assert (He : In e (mapPiiToBboxTrace piiList words)) by (rewrite E; now left).
  apply call_Detail in He as [(_ & _ & Hv & Hvne & _) _].
  apply Hvne. rewrite Hv, vertices_of_normalized.
  clear -Hbare. induction (e_positions e) as [|p ps IH]; [reflexivity |].
  rewrite wordsAt_step, flat_map_app, List.filter_app, IH, app_nil_r.
  destruct (words !! p) as [w|] eqn:Hw; [| reflexivity].
  simpl. rewrite app_nil_r. apply Hbare.
  apply list_elem_of_In. eapply list_elem_of_lookup_2, Hw.
Qed.

Lemma no_polygon_no_record_witness :
  mapPiiToBbox [phrase "John Smith"; phrase "AB12 CDE"] [] = []
  /\ mapPiiToBbox [phrase "John Smith"] [bareWord "John"; bareWord "Smith"] = [].
Proof.
  split.
  - apply no_polygon_no_record. intros w [].
  - apply no_polygon_no_record. intros w [<- | [<- | []]]; reflexivity.
Defined.

(** X11. The strategy of a record fixes its confidence and the shape of its
    positions: an exact record has confidence 1 and covers a window as long
    as its variant; a flexible record covers as many positions as it reports
    words, at least 3, with confidence between 0.8 and 0.97; a fuzzy record
    covers a window of 1 to 5 words with the confidence it reports, between
    0.85 and 1. So every confidence lies between 0.8 and 1. *)
Theorem records_confidence_by_strategy (piiList : list Pii)
    (words : list WordInfo) (e : Emitted) :
  In e (mapPiiToBboxTrace piiList words) ->
  Scored e /\ (8 # 10 <= m_confidence (e_match e) <= 1)%Q.
Proof.
  intros He. apply call_Detail in He as [_ Hs]. split; [exact Hs |].
  unfold Scored in Hs. destruct (m_matchType (e_match e)) as [v | n | c].
  - destruct Hs as [-> _]. split; lra.
  - destruct Hs as (_ & _ & H). split; lra.
  - destruct Hs as (-> & H & _). split; lra.
Qed.

Lemma records_confidence_by_strategy_witness :
  exists e,
    In e (mapPiiToBboxTrace [phrase "A B C-D"] twiceWords)
    /\ (8 # 10 <= m_confidence (e_match e) <= 1)%Q.
Proof.
  destruct (mapPiiToBboxTrace [phrase "A B C-D"] twiceWords) as [|e l] eqn:E;
    [vm_compute in E; discriminate E |].
  exists e. split; [now left |].
  apply (records_confidence_by_strategy [phrase "A B C-D"] twiceWords e).
  rewrite E. now left.
Defined.

(** ** Phrases are processed independently *)

Lemma createPiiMatch_shift (wordSlice : list WordInfo) (id k : nat) (pii : Pii)
    (confidence : Q) (matchType : MatchType) :
  createPiiMatch wordSlice (id + k) pii confidence matchType
  = option_map (shiftId k) (createPiiMatch wordSlice id pii confidence matchType).
Proof.
  unfold createPiiMatch. destruct (length _ =? 0); reflexivity.
Qed.

Lemma pushMatch_shift (k : nat) (base : list Emitted) (positions : list nat)
    (m : option PiiMatch) (data : list Emitted) :
  pushMatch positions (option_map (shiftId k) m)
    (base ++ List.map (shiftEmitted k) data)
  = base ++ List.map (shiftEmitted k) (pushMatch positions m data).
Proof.
  destruct m as [r|]; simpl; [| reflexivity].
  now rewrite List.map_app, app_assoc.
Qed.

Section ShiftedPhrase.
Variables (pii : Pii) (wordMap : list WordInfo) (k : nat) (base : list Emitted).

Lemma Shifted_fold_left {X} (f : State -> X -> State) (l : list X) :
  (forall x st1 st2, Shifted k base st1 st2 -> Shifted k base (f st1 x) (f st2 x)) ->
  forall st1 st2,
    Shifted k base st1 st2 ->
    Shifted k base (fold_left f l st1) (fold_left f l st2).
Proof.
  intros Hf. induction l as [|x l IH]; intros st1 st2 H; simpl; [exact H |].
  apply IH, Hf, H.
Qed.

Lemma exactAt_Shifted (variant : Variant) (i : nat) (st1 st2 : State) :
  Shifted k base st1 st2 ->
  Shifted k base (exactAt pii wordMap variant st1 i)
    (exactAt pii wordMap variant st2 i).
Proof.
  intros (Hc & Hf & Hk & Hd). unfold exactAt. rewrite Hf.
  destruct (bool_decide _); [repeat split; assumption |].
  destruct (variant_eqb _ _); [| repeat split; assumption].
  unfold Shifted. simpl.
  rewrite ?Hc, ?Hf, ?Hk, ?Hd, createPiiMatch_shift, pushMatch_shift.
  repeat split; reflexivity.
Qed.

Lemma flexibleAt_Shifted (flexMatch : FlexMatch) (st1 st2 : State) :
  Shifted k base st1 st2 ->
  Shifted k base (flexibleAt pii st1 flexMatch) (flexibleAt pii st2 flexMatch).
Proof.
  intros (Hc & Hf & Hk & Hd). unfold flexibleAt.
  rewrite Hk, createPiiMatch_shift.
  destruct (createPiiMatch _ (piiIdCounter st1) _ _ _) as [r|]; unfold Shifted;
    simpl; rewrite ?Hc, ?Hf, ?Hd; repeat split; try reflexivity.
  now rewrite List.map_app, app_assoc.
Qed.

Lemma fuzzyAt_Shifted (c : FuzzyMatchInfo) (st1 st2 : State) :
  Shifted k base st1 st2 ->
  Shifted k base (fuzzyAt pii wordMap st1 c) (fuzzyAt pii wordMap st2 c).
Proof.
  intros (Hc & Hf & Hk & Hd). unfold fuzzyAt. rewrite Hf.
  destruct (bool_decide _); [repeat split; assumption |].
  rewrite Hk, createPiiMatch_shift.
  destruct (createPiiMatch _ (piiIdCounter st1) _ _ _) as [r|]; unfold Shifted;
    simpl; rewrite ?Hc, ?Hf, ?Hd; repeat split; try reflexivity.
  now rewrite List.map_app, app_assoc.
Qed.

Lemma phrase_steps_Shifted (searchVariants : list Variant) (st1 st2 : State) :
  Shifted k base st1 st2 ->
  Shifted k base
    (fuzzyStep pii wordMap
       (flexibleStep pii wordMap searchVariants
          (exactStep pii wordMap searchVariants st1)))
    (fuzzyStep pii wordMap
       (flexibleStep pii wordMap searchVariants
          (exactStep pii wordMap searchVariants st2))).
Proof.
  intros H.
  assert (H1 : Shifted k base (exactStep pii wordMap searchVariants st1)
                 (exactStep pii wordMap searchVariants st2)).
  { unfold exactStep. apply Shifted_fold_left; [| exact H].
    intros variant sa sb Hab. unfold exactVariant.
    apply Shifted_fold_left; [| exact Hab].
    intros i sc sd. apply exactAt_Shifted. }
  set (sa := exactStep pii wordMap searchVariants st1) in *.
  set (sb := exactStep pii wordMap searchVariants st2) in *.
  assert (H2 : Shifted k base (flexibleStep pii wordMap searchVariants sa)
                 (flexibleStep pii wordMap searchVariants sb)).
  { unfold flexibleStep, flexibleRuns.
    destruct H1 as (Hc & Hf & Hk & Hd). rewrite Hc, Hf.
    destruct (_ && _); [| repeat split; assumption].
    apply Shifted_fold_left; [| repeat split; assumption].
    intros fm sc sd. apply flexibleAt_Shifted. }
  set (sc := flexibleStep pii wordMap searchVariants sa) in *.
  set (sd := flexibleStep pii wordMap searchVariants sb) in *.
  unfold fuzzyStep. destruct H2 as (Hc & Hf & Hk & Hd). rewrite Hc.
  destruct (_ <? _); [| repeat split; assumption].
  apply Shifted_fold_left; [| repeat split; assumption].
  intros c se sf. apply fuzzyAt_Shifted.
Qed.
End ShiftedPhrase.

(** X12. The records of a phrase do not depend on the phrases processed
    before it: they are the records the phrase gives when it is processed
    alone, with the ids moved up by the number of ids taken before; they
    follow the records of the earlier phrases in the output. *)
Theorem phrase_records_independent (before : list Pii) (pii : Pii)
    (words : list WordInfo) :
  mapPiiToBbox (before ++ [pii]) words
  = mapPiiToBbox before words
    ++ List.map
         (shiftId (piiIdCounter
                     (fold_left (processPii (normalizeWords words)) before
                        initialState)))
         (mapPiiToBbox [pii] words).
Proof.
  unfold mapPiiToBbox, mapPiiToBboxTrace. rewrite fold_left_app. simpl.
  set (st := fold_left (processPii (normalizeWords words)) before initialState).
  unfold processPii.
  destruct (phrase_steps_Shifted pii (normalizeWords words) (piiIdCounter st)
              (piiData st) (createSearchVariants (pii_text pii))
              {| instanceCount := 0; foundPositions := ∅;
                 piiIdCounter := piiIdCounter initialState;
                 piiData := piiData initialState |}
              {| instanceCount := 0; foundPositions := ∅;
                 piiIdCounter := piiIdCounter st; piiData := piiData st |})
    as (_ & _ & _ & Hd).
  - repeat split; simpl; rewrite ?app_nil_r; reflexivity.
  - rewrite Hd, List.map_app, !List.map_map. reflexivity.
Qed.

(** ** A phrase that is the whole word list *)

Lemma createSearchVariants_head (piiText : string) :
  exists more, createSearchVariants piiText = tokenize piiText :: more.
Proof.
  unfold createSearchVariants.
  exact (uniqueVariants_head (normalizedWordsOf piiText) _).
Qed.

Lemma fold_left_preserves {X} (I : State -> Prop) (f : State -> X -> State)
    (l : list X) :
  (forall st x, In x l -> I st -> I (f st x)) ->
  forall st, I st -> I (fold_left f l st).
Proof.
  induction l as [|x l IH]; intros Hf st Hst; simpl; [exact Hst |].
  apply IH; [intros st' y Hy; apply Hf; now right |].
  apply Hf; [now left | exact Hst].
Qed.

Lemma vertices_of_normalizeWords (words : list WordInfo) :
  flat_map verticesOf (normalizeWords words) = flat_map verticesOf words.
Proof.
  induction words as [|w words IH]; simpl; [reflexivity |].
  now rewrite IH.
Qed.

Section WholePhrase.
Variables (pii : Pii) (wordMap : list WordInfo) (e : Emitted).

Lemma exactAt_FoundWhole (variant : Variant) (st : State) (i : nat) :
  i + length variant <= length wordMap ->
  FoundWhole (length wordMap) e st ->
  FoundWhole (length wordMap) e (exactAt pii wordMap variant st i).
Proof.
  intros Hi (Hd & Hall & Hc). unfold exactAt.
  destruct (bool_decide (i ∈ foundPositions st)) eqn:Hin;
    [repeat split; assumption |].
  apply bool_decide_eq_false_1 in Hin.
  assert (Hn : i = length wordMap /\ length variant = 0).
  { destruct (Nat.lt_ge_cases i (length wordMap)) as [Hlt | Hge];
      [exfalso; exact (Hin (Hall i Hlt)) | lia]. }
  destruct Hn as [-> Hv].
  destruct (variant_eqb _ _); [| repeat split; assumption].
  assert (Hslice : sliceWords wordMap (length wordMap)
                     (length wordMap + length variant) = []).
  { unfold sliceWords. rewrite Hv.
    replace (length wordMap + 0 - length wordMap) with 0 by lia. reflexivity. }
  rewrite Hslice. unfold FoundWhole.
  cbn [piiData foundPositions instanceCount].
  split; [exact Hd | split; [| lia]].
  intros p Hp. apply elem_of_addAll. right. apply elem_of_union_r. now apply Hall.
Qed.

Lemma fuzzyAt_FoundWhole (piiText : string) (st : State) (c : FuzzyMatchInfo) :
  In c (fuzzyMatchPII piiText wordMap (85 # 100)) ->
  FoundWhole (length wordMap) e st ->
  fuzzyAt pii wordMap st c = st.
Proof.
  intros Hc (_ & Hall & _).
  apply fuzzyMatchPII_incl, fuzzyCandidates_bounds in Hc as (Hs & Hfit & _).
  unfold fuzzyAt. rewrite bool_decide_eq_true_2; [reflexivity |].
  apply Hall. lia.
Qed.

Lemma rest_of_phrase_FoundWhole (more : list Variant) (st : State) :
  FoundWhole (length wordMap) e st ->
  FoundWhole (length wordMap) e
    (fuzzyStep pii wordMap
       (flexibleStep pii wordMap (tokenize (pii_text pii) :: more)
          (fold_left (exactVariant pii wordMap) more st))).
Proof.
  intros Hst.
  assert (H1 : FoundWhole (length wordMap) e
                 (fold_left (exactVariant pii wordMap) more st)).
  { apply fold_left_preserves; [| exact Hst]. intros st' variant _ Hst'.
    unfold exactVariant. apply fold_left_preserves; [| exact Hst'].
    intros st'' i Hi. apply exactAt_FoundWhole.
    apply in_seq in Hi. unfold Variant in *. lia. }
  set (st1 := fold_left (exactVariant pii wordMap) more st) in *.
  assert (H2 : flexibleStep pii wordMap (tokenize (pii_text pii) :: more) st1
               = st1).
  { unfold flexibleStep, flexibleRuns. destruct H1 as (_ & _ & Hc).
    replace (instanceCount st1 =? 0) with false
      by (symmetry; apply Nat.eqb_neq; lia).
    now rewrite andb_false_r. }
  rewrite H2. unfold fuzzyStep. destruct (_ <? _); [| exact H1].
  apply fold_left_preserves; [| exact H1].
  intros st' c Hc Hst'. now rewrite (fuzzyAt_FoundWhole _ st' c Hc Hst').
Qed.
End WholePhrase.

(** X13. When the normalized texts of the words are, one for one, the base
    tokens of the phrase, and some word has a vertex with numeric [x] and
    [y], the phrase alone gives exactly one record: the exact match of the
    base variant over the whole word list, with id 0, confidence 1 and the
    usable vertices of all words. The other variants and the fuzzy step add
    nothing. *)
Theorem whole_list_phrase_found_once (pii : Pii) (words : list WordInfo) :
  List.map text (normalizeWords words) = tokenize (pii_text pii) ->
  (exists w, In w words /\ List.filter validVertex (verticesOf w) <> []) ->
  exists r,
    mapPiiToBboxTrace [pii] words
    = [ {| e_positions := windowAt 0 (length words); e_match := r |} ]
    /\ m_id r = 0
    /\ m_confidence r = 1%Q
    /\ m_matchType r = ExactVariant (tokenize (pii_text pii))
    /\ m_vertices r = List.filter validVertex (flat_map verticesOf words).
Proof.
  intros Htext (w & Hw & Hvalid).
  set (wordMap := normalizeWords words) in *.
  assert (Hlen : length wordMap = length words)
    by (unfold wordMap, normalizeWords; apply length_map).
  assert (Hn : length (tokenize (pii_text pii)) = length wordMap)
    by (rewrite <- Htext; apply length_map).
  destruct (createPiiMatch wordMap 0 pii 1
              (ExactVariant (tokenize (pii_text pii)))) as [r|] eqn:E.
  2:{ exfalso. unfold createPiiMatch in E.
      destruct (length _ =? 0) eqn:E0; [| discriminate E].
      apply Nat.eqb_eq, length_zero_iff_nil in E0.
      unfold wordMap in E0. rewrite vertices_of_normalizeWords in E0.
      apply Hvalid.
      assert (Hsub : forall v, In v (List.filter validVertex (verticesOf w)) ->
                               False).
      { intros v Hv. apply filter_In in Hv as [Hv Hok].
        assert (Hin : In v (List.filter validVertex (flat_map verticesOf words))).
        { apply filter_In. split; [| exact Hok]. apply in_flat_map. eauto. }
        rewrite E0 in Hin. destruct Hin. }
      destruct (List.filter validVertex (verticesOf w)) as [|v l];
        [reflexivity | exfalso; apply (Hsub v); now left]. }
  pose proof (createPiiMatch_fields _ _ _ _ _ _ E) as (Hid & _).
  pose proof (createPiiMatch_geometry _ _ _ _ _ _ E)
    as (Hv & _ & _ & Hconf & Hty).
  exists r. split; [| repeat split; try assumption].
  2:{ rewrite Hv. unfold wordMap. now rewrite vertices_of_normalizeWords. }
  unfold mapPiiToBboxTrace. simpl fold_left. unfold processPii. fold wordMap.
  destruct (createSearchVariants_head (pii_text pii)) as [more ->].
  unfold exactStep. cbn [fold_left].
  set (st0 := {| instanceCount := 0; foundPositions := ∅;
                 piiIdCounter := piiIdCounter initialState;
                 piiData := piiData initialState |}).
  assert (Hfirst : FoundWhole (length wordMap)
                     {| e_positions := windowAt 0 (length words); e_match := r |}
                     (exactVariant pii wordMap st0 (tokenize (pii_text pii)))).
  { unfold exactVariant. rewrite Hn.
    replace (S (length wordMap) - length wordMap) with 1 by lia.
    cbn [seq fold_left]. unfold exactAt.
    rewrite bool_decide_eq_false_2 by (simpl; apply not_elem_of_empty).
    rewrite Hn. unfold sliceWords.
    replace (0 + length wordMap - 0) with (length wordMap) by lia.
    cbn [skipn]. rewrite firstn_all.
    unfold variant_eqb. rewrite bool_decide_eq_true_2 by exact Htext.
    change (piiIdCounter st0) with 0. change (drop 0 wordMap) with wordMap.
    rewrite E.
    unfold FoundWhole. simpl. rewrite Hlen. split; [reflexivity |].
    split; [| lia]. intros p Hp. apply elem_of_addAll. left.
    apply in_window. lia. }
  destruct (rest_of_phrase_FoundWhole pii wordMap _ more _ Hfirst) as (Hd & _).
  exact Hd.
Qed.

Lemma whole_list_phrase_found_once_witness :
  exists r,
    mapPiiToBboxTrace [phrase "Jane O'Neil"]
      [boxWord "Jane" 0 0; boxWord "ONeil," 10 0]
    = [ {| e_positions := windowAt 0 2; e_match := r |} ]
    /\ m_id r = 0
    /\ m_confidence r = 1%Q
    /\ m_matchType r = ExactVariant (tokenize "Jane O'Neil")
    /\ m_vertices r
       = List.filter validVertex
           (flat_map verticesOf [boxWord "Jane" 0 0; boxWord "ONeil," 10 0]).
Proof.
  apply (whole_list_phrase_found_once (phrase "Jane O'Neil")
           [boxWord "Jane" 0 0; boxWord "ONeil," 10 0]).
  - reflexivity.
  - exists (boxWord "Jane" 0 0). split; [now left | vm_compute; discriminate].
Defined.

(** ** Toggling a redaction on the client *)

Lemma toggleRedaction_absent (id : nat) (l : list PiiMatch) :
  ~ In id (List.map m_id l) -> toggleRedaction id l = l.
Proof.
  unfold toggleRedaction. induction l as [|r l IH]; intros H; simpl;
    [reflexivity |].
  simpl in H. rewrite IH by tauto.
  replace (m_id r =? id) with false; [reflexivity |].
  symmetry. apply Nat.eqb_neq. tauto.
Qed.

Lemma StronglySorted_lt_NoDup (l : list nat) :
  StronglySorted lt l -> List.NoDup l.
Proof.
  induction 1 as [|a l S IH Ha]; constructor; [| exact IH].
  intros Hin. rewrite List.Forall_forall in Ha. specialize (Ha a Hin). lia.
Qed.

Lemma mapPiiToBbox_ids_NoDup (piiList : list Pii) (words : list WordInfo) :
  List.NoDup (List.map m_id (mapPiiToBbox piiList words)).
Proof.
  destruct (call_Grows (fun _ => True) piiList words (fun _ _ _ _ => I))
    as (_ & new & Hd & _ & S).
  simpl in Hd. unfold mapPiiToBbox, mapPiiToBboxTrace.
  rewrite Hd, List.map_map. exact (StronglySorted_lt_NoDup _ S).
Qed.

Lemma mapPiiToBbox_drawn (piiList : list Pii) (words : list WordInfo)
    (r : PiiMatch) :
  In r (mapPiiToBbox piiList words) -> isDrawn r = true.
Proof.
  unfold mapPiiToBbox. intros Hr. apply in_map_iff in Hr as (e & <- & He).
  pose proof (call_Detail piiList words e He) as [(_ & _ & _ & Hvne & _) _].
  destruct (call_Grows (fun e => m_redacted (e_match e) = true) piiList words)
    as (_ & new & Hd & F & _).
  { intros pii e' _ (_ & _ & Hred). exact Hred. }
  simpl in Hd. unfold mapPiiToBboxTrace in He. rewrite Hd in He.
  rewrite List.Forall_forall in F. destruct (F e He) as [Hred _].
  unfold isDrawn. rewrite Hred. simpl.
  destruct (m_vertices (e_match e)); [contradiction | reflexivity].
Qed.

(** X14. On the records of a call, which are all drawn at first, toggling
    the id of a record flips the [redacted] flag of that record and of no
    other, so that exactly this record is no longer drawn. *)
Theorem toggle_flips_exactly_one_record (piiList : list Pii)
    (words : list WordInfo) (l1 l2 : list PiiMatch) (r : PiiMatch) :
  mapPiiToBbox piiList words = l1 ++ r :: l2 ->
  toggleRedaction (m_id r) (l1 ++ r :: l2) = l1 ++ flipRedacted r :: l2
  /\ List.Forall (fun pii => isDrawn pii = true) (l1 ++ r :: l2)
  /\ isDrawn (flipRedacted r) = false.
Proof.
  intros Hout.
  pose proof (mapPiiToBbox_ids_NoDup piiList words) as Hnd.
  rewrite Hout, List.map_app in Hnd. simpl in Hnd.
  apply NoDup_remove in Hnd as [_ Hnot].
  assert (Hdrawn : List.Forall (fun pii => isDrawn pii = true) (l1 ++ r :: l2)).
  { rewrite <- Hout. apply List.Forall_forall. intros pii.
    apply mapPiiToBbox_drawn. }
  split; [| split; [exact Hdrawn |]].
  - unfold toggleRedaction. rewrite List.map_app. simpl.
    rewrite Nat.eqb_refl.
    fold (toggleRedaction (m_id r) l1). fold (toggleRedaction (m_id r) l2).
    rewrite !toggleRedaction_absent; [reflexivity | |];
      intros Hin; apply Hnot, in_or_app; auto.
  - rewrite List.Forall_forall in Hdrawn.
    assert (Hr : isDrawn r = true) by (apply Hdrawn, in_or_app; right; now left).
    unfold isDrawn in *. simpl. apply andb_true_iff in Hr as [-> _].
    reflexivity.
Qed.

Lemma toggle_flips_exactly_one_record_witness :
  exists r1 r2,
    mapPiiToBbox [phrase "A B C-D"] twiceWords = [r1; r2]
    /\ toggleRedaction (m_id r2) [r1; r2] = [r1; flipRedacted r2].
Proof.
  destruct (mapPiiToBbox [phrase "A B C-D"] twiceWords) as [|r1 [|r2 [|r3 l]]]
    eqn:E; try (vm_compute in E; discriminate E).
  exists r1, r2. split; [reflexivity |].
  exact (proj1 (toggle_flips_exactly_one_record [phrase "A B C-D"] twiceWords
                  [r1] [] r2 E)).
Defined.




(** ** The processing messages *)

Lemma findIndex_absent (prev : string) (l : list string) :
  ~ In prev l -> findIndex (String.eqb prev) l = None.
Proof.
  induction l as [|s l IH]; intros H; simpl; [reflexivity |].
  simpl in H. replace (String.eqb prev s) with false.
  - rewrite IH by tauto. reflexivity.
  - symmetry. apply String.eqb_neq. intros ->. tauto.
Qed.

Lemma nextMessage_step (i : nat) :
  i < 10 ->
  nextMessage (nth i PROCESSING_MESSAGES "")
  = nth ((i + 1) mod 10) PROCESSING_MESSAGES "".
Proof.
  intros Hi. do 10 (destruct i as [|i]; [vm_compute; reflexivity |]). lia.
Qed.

(** X16. The processing messages are shown in a cycle of period 10: from the
    message at index [i], [k] updates lead to the message at index
    [(i + k) mod 10], so 10 updates lead back to the same message; from a
    text that is not one of the messages the next one is the first. *)
Theorem processing_messages_cycle (i k : nat) (other : string) :
  i < 10 ->
  Nat.iter k nextMessage (nth i PROCESSING_MESSAGES "")
  = nth ((i + k) mod 10) PROCESSING_MESSAGES ""
  /\ Nat.iter 10 nextMessage (nth i PROCESSING_MESSAGES "")
     = nth i PROCESSING_MESSAGES ""
  /\ (~ In other PROCESSING_MESSAGES ->
      nextMessage other = "Processing with AI...").
Proof.
  intros Hi.
  assert (Hiter : forall j, Nat.iter j nextMessage (nth i PROCESSING_MESSAGES "")
                            = nth ((i + j) mod 10) PROCESSING_MESSAGES "").
  { induction j as [|j IH].
    - change (Nat.iter 0 nextMessage (nth i PROCESSING_MESSAGES ""))
        with (nth i PROCESSING_MESSAGES "").
      rewrite Nat.add_0_r, Nat.mod_small by lia. reflexivity.
    - rewrite Nat.iter_succ, IH, nextMessage_step.
      + rewrite Nat.Div0.add_mod_idemp_l. f_equal. f_equal. lia.
      + apply Nat.mod_upper_bound. lia. }
  split; [apply Hiter | split].
  - rewrite Hiter. f_equal.
    rewrite <- (Nat.mul_1_l 10) at 1. rewrite Nat.Div0.mod_add.
    apply Nat.mod_small. exact Hi.
  - intros Hnot. unfold nextMessage, indexOfMessage.
    rewrite (findIndex_absent other _ Hnot). reflexivity.
Qed.

Lemma processing_messages_cycle_witness :
  Nat.iter 12 nextMessage "Almost there..." = "Processing with AI..."
  /\ nextMessage "Uploading..." = "Processing with AI...".
Proof.
  destruct (processing_messages_cycle 8 12 "Uploading...") as (H & _ & Hother).
  - lia.
  - split; [| apply Hother; vm_compute; intuition discriminate].
    change (nth 8 PROCESSING_MESSAGES "") with "Almost there..." in H.
    rewrite H. vm_compute. reflexivity.
Defined.

(** ** The exact step misses no occurrence *)

Lemma fold_found_mono {X} (f : State -> X -> State) (l : list X) :
  (forall st x, foundPositions st ⊆ foundPositions (f st x)) ->
  forall st, foundPositions st ⊆ foundPositions (fold_left f l st).
Proof.
  intros Hf. induction l as [|x l IH]; intros st; simpl; [set_solver |].
  etransitivity; [apply (Hf st x) | apply IH].
Qed.

Section ExactComplete.
Variables (pii : Pii) (wordMap : list WordInfo).

Lemma exactAt_found_mono (variant : Variant) (st : State) (i : nat) :
  foundPositions st ⊆ foundPositions (exactAt pii wordMap variant st i).
Proof.
  unfold exactAt. destruct (bool_decide _); [set_solver |].
  destruct (variant_eqb _ _); [| set_solver].
  cbn [foundPositions]. intros p Hp. apply elem_of_addAll. right.
  now apply elem_of_union_r.
Qed.

Lemma exactVariant_found_mono (st : State) (variant : Variant) :
  foundPositions st ⊆ foundPositions (exactVariant pii wordMap st variant).
Proof.
  unfold exactVariant. apply fold_found_mono. intros st' i.
  apply exactAt_found_mono.
Qed.

Lemma exactAt_claims_occurrence (variant : Variant) (st : State) (i : nat) :
  List.map text (sliceWords wordMap i (i + length variant)) = variant ->
  i ∈ foundPositions (exactAt pii wordMap variant st i).
Proof.
  intros Heq. unfold exactAt.
  destruct (bool_decide (i ∈ foundPositions st)) eqn:Hi;
    [now apply bool_decide_eq_true_1 in Hi |].
  unfold variant_eqb. rewrite bool_decide_eq_true_2 by exact Heq.
  cbn [foundPositions]. apply elem_of_addAll. right.
  apply elem_of_union_l, elem_of_singleton. reflexivity.
Qed.

Lemma exactVariant_claims_occurrence (variant : Variant) (st : State) (i : nat) :
  i + length variant <= length wordMap ->
  List.map text (sliceWords wordMap i (i + length variant)) = variant ->
  i ∈ foundPositions (exactVariant pii wordMap st variant).
Proof.
  intros Hi Heq. unfold exactVariant.
  assert (Hin : In i (seq 0 (S (length wordMap) - length variant)))
    by (apply in_seq; unfold Variant in *; lia).
  apply in_split in Hin as (l1 & l2 & ->).
  rewrite fold_left_app. cbn [fold_left].
  apply (fold_found_mono (exactAt pii wordMap variant) l2);
    [intros st' j; apply exactAt_found_mono |].
  now apply exactAt_claims_occurrence.
Qed.
End ExactComplete.

(** X17. The exact step misses no occurrence: after it, the start of every
    window of the word list that equals one of the variants is claimed,
    because the window was matched there or because an earlier match for the
    phrase had already claimed that position; and the step never unclaims a
    position. *)
Theorem exact_step_claims_every_occurrence (pii : Pii) (wordMap : list WordInfo)
    (searchVariants : list Variant) (st : State) (variant : Variant) (i : nat) :
  In variant searchVariants ->
  i + length variant <= length wordMap ->
  List.map text (sliceWords wordMap i (i + length variant)) = variant ->
  i ∈ foundPositions (exactStep pii wordMap searchVariants st)
  /\ foundPositions st
     ⊆ foundPositions (exactStep pii wordMap searchVariants st).
Proof.
  intros Hv Hi Heq. split.
  - unfold exactStep. apply in_split in Hv as (l1 & l2 & ->).
    rewrite fold_left_app. cbn [fold_left].
    apply (fold_found_mono (exactVariant pii wordMap) l2);
      [intros st' v; apply exactVariant_found_mono |].
    now apply exactVariant_claims_occurrence.
  - unfold exactStep. apply fold_found_mono. intros st' v.
    apply exactVariant_found_mono.
Qed.

Lemma exact_step_claims_every_occurrence_witness :
  2 ∈ foundPositions
        (exactStep (phrase "B A-B") (normalizeWords sharedWords)
           (createSearchVariants "B A-B") initialState).
Proof.
  destruct (exact_step_claims_every_occurrence (phrase "B A-B")
              (normalizeWords sharedWords) (createSearchVariants "B A-B")
              initialState ["B"; "AB"] 2) as [H _].
  - vm_compute. left. reflexivity.
  - simpl. lia.
  - reflexivity.
  - exact H.
Defined.

(** ** An occurrence up to case is a fuzzy match of confidence 1 *)

Lemma levRow_length (a : ascii) (t : list ascii) :
  forall prev left,
    length prev = S (length t) -> length (levRow a t prev left) = length t.
Proof.
  induction t as [|b t IH]; intros prev left Hlen; [reflexivity |].
  destruct prev as [|diag [|up rest]]; try discriminate Hlen.
  cbn [levRow length]. f_equal. apply IH. simpl in Hlen. simpl. lia.
Qed.

Lemma levRow_diagonal (a : ascii) (t : list ascii) :
  forall prev left j,
    length prev = S (length t) ->
    nth_error t j = Some a ->
    nth j prev 1 = 0 ->
    nth j (levRow a t prev left) 1 = 0.
Proof.
  induction t as [|b t IH]; intros prev left j Hlen Hj Hdiag.
  - destruct j; discriminate Hj.
  - destruct prev as [|diag [|up rest]]; try discriminate Hlen.
    cbn [levRow]. destruct j as [|j].
    + simpl in Hj, Hdiag. injection Hj as ->. subst diag.
      rewrite Ascii.eqb_refl. simpl. lia.
    + cbn [nth]. apply IH; [simpl in *; lia | exact Hj | exact Hdiag].
Qed.

Lemma distance_rows_diagonal (t : list ascii) (rest : list ascii) :
  forall done row,
    done ++ rest = t ->
    length row = S (length t) ->
    nth (length done) row 1 = 0 ->
    nth (length t)
      (fold_left
         (fun row a => let first := S (hd 0 row) in first :: levRow a t row first)
         rest row) 1 = 0.
Proof.
  induction rest as [|a rest IH]; intros done row Ht Hlen Hd.
  - rewrite app_nil_r in Ht. subst done. exact Hd.
  - cbn [fold_left]. apply (IH (done ++ [a])).
    + now rewrite <- app_assoc.
    + cbn [length]. now rewrite levRow_length.
    + rewrite length_app. cbn [length]. rewrite Nat.add_1_r. cbn [nth].
      apply levRow_diagonal; [exact Hlen | | exact Hd].
      rewrite <- Ht, nth_error_app2, Nat.sub_diag by lia. reflexivity.
Qed.

Lemma last_nth_length {A} (l : list A) (d d' : A) (n : nat) :
  length l = S n -> List.last l d = nth n l d'.
Proof.
  revert n. induction l as [|x l IH]; intros n Hlen; [discriminate Hlen |].
  destruct l as [|y l].
  - simpl in Hlen. injection Hlen as <-. reflexivity.
  - destruct n as [|n]; [discriminate Hlen |].
    change (List.last (x :: y :: l) d) with (List.last (y :: l) d).
    cbn [nth]. apply IH. simpl in *. lia.
Qed.

Lemma fold_rows_length (t : list ascii) (s : list ascii) :
  forall row,
    length row = S (length t) ->
    length (fold_left
              (fun row a => let first := S (hd 0 row) in
                            first :: levRow a t row first) s row)
    = S (length t).
Proof.
  induction s as [|a s IH]; intros row Hlen; [exact Hlen |].
  cbn [fold_left]. apply IH. cbn [length]. now rewrite levRow_length.
Qed.

Lemma distance_same (s : string) : distance s s = 0.
Proof.
  unfold distance.
  rewrite (last_nth_length _ 0 1 (length (Js.chars s))).
  - apply (distance_rows_diagonal (Js.chars s) (Js.chars s) []);
      [reflexivity | apply length_seq | reflexivity].
  - apply fold_rows_length, length_seq.
Qed.

Lemma similarityOf_same (s : string) : (similarityOf s s == 1)%Q.
Proof.
  unfold similarityOf. rewrite distance_same. simpl Z.of_nat.
  unfold Qdiv. change (inject_Z 0) with 0%Q. rewrite Qmult_0_l. reflexivity.
Qed.

(** X18. A window of 1 to 5 words whose normalized, lower-cased text is the
    normalized, lower-cased phrase is a candidate of confidence 1, so the
    fuzzy matcher then returns a match of confidence 1 first: differences of
    case, punctuation and word division alone never hide an occurrence from
    it. *)
Theorem occurrence_up_to_case_scores_1 (piiText : string)
    (words : list WordInfo) (i span : nat) :
  1 <= span <= Nat.min 5 (length words) ->
  i + span <= length words ->
  candidateAt words i span = Js.toLowerCase (Js.stripNonAlnum piiText) ->
  candidateAt words i span <> "" ->
  (exists m,
      In m (fuzzyCandidates piiText words (85 # 100))
      /\ z_position m = i /\ z_matchedWords m = span
      /\ (z_confidence m == 1)%Q)
  /\ exists best rest,
       fuzzyMatchPII piiText words (85 # 100) = best :: rest
       /\ (z_confidence best == 1)%Q.
Proof.
  intros Hs Hi Hsame Hne.
  set (m := {| z_position := i;
               z_confidence := similarityOf
                                 (Js.toLowerCase (Js.stripNonAlnum piiText))
                                 (candidateAt words i span);
               z_matchedWords := span |}).
  assert (Hconf : (z_confidence m == 1)%Q).
  { unfold m. simpl. rewrite Hsame. apply similarityOf_same. }
  assert (Hin : In m (fuzzyCandidates piiText words (85 # 100))).
  { apply fuzzyCandidates_windows. exists span, i.
    split; [exact Hs | split; [exact Hi |]].
    apply fuzzyAtWindow_spec. split; [exact Hne | split; [| reflexivity]].
    change (z_confidence m) with
      (similarityOf (Js.toLowerCase (Js.stripNonAlnum piiText))
         (candidateAt words i span)) in Hconf.
    rewrite Hconf. unfold Qle. simpl. lia. }
  split; [exists m; repeat split; assumption |].
  unfold fuzzyMatchPII.
  pose proof (sortDesc_perm z_confidence
                (fuzzyCandidates piiText words (85 # 100))) as Hperm.
  pose proof (sortDesc_sorted z_confidence
                (fuzzyCandidates piiText words (85 # 100))) as HS.
  apply (Permutation_in _ (Permutation_sym Hperm)) in Hin.
  destruct (sortDesc z_confidence (fuzzyCandidates piiText words (85 # 100)))
    as [|best sorted] eqn:E; [destruct Hin |].
  destruct (removeOverlapping_head best sorted) as [rest Hrest].
  exists best, rest. split; [exact Hrest |].
  apply Qle_antisym.
  - assert (Hb : In best (fuzzyCandidates piiText words (85 # 100)))
      by (apply (Permutation_in _ Hperm); now left).
    now apply fuzzyCandidates_bounds in Hb.
  - rewrite <- Hconf. inversion HS as [|? ? _ Hall]; subst.
    destruct Hin as [<- | Hin]; [apply Qle_refl |].
    rewrite List.Forall_forall in Hall. exact (Hall m Hin).
Qed.

Lemma occurrence_up_to_case_scores_1_witness :
  exists best rest,
    fuzzyMatchPII "Hello, World"
      [boxWord "HELLO" 0 0; boxWord "WORLD" 10 0] (85 # 100) = best :: rest
    /\ (z_confidence best == 1)%Q.
Proof.
  destruct (occurrence_up_to_case_scores_1 "Hello, World"
              [boxWord "HELLO" 0 0; boxWord "WORLD" 10 0] 0 2) as [_ H].
  - simpl. lia.
  - simpl. lia.
  - reflexivity.
  - discriminate.
  - exact H.
Defined.
